(** * ts_hashmap: a chained hash map from int keys to int values

    Shallow embedding of [src/ts_hashmap.c].  Every public operation of the
    C file takes the map's mutex before it reads the table and gives it back
    after the last counter update, so the body of an operation is one
    critical section; the functions below are the sequential meaning of
    those critical sections.

    Conventions.
    - A C [int] is a [Z] in [INT_MIN .. INT_MAX] (32 bits, two's complement).
    - A bucket chain (the [next]-linked entries hanging off [table[i]]) is
      the list of its entries, head first.
    - [get], [put] and [del] return [option]: [None] stands for an execution
      that the C language leaves undefined (a remainder by zero, a read
      outside the table, the overflow of a signed counter).  [initmap]
      returns [option] too, but there [None] is the [NULL] the C function
      returns when it could not build the map.
    - [malloc] and [pthread_mutex_init] may fail; their outcome is an
      explicit boolean argument of the operation that calls them. *)

From stdpp Require Import base option list numbers gmap.

Local Open Scope Z_scope.

(** ** Machine integers *)

Definition INT_MAX : Z := 2147483647.
Definition INT_MIN : Z := -2147483648.
Definition UINT_MODULUS : Z := 4294967296.

(** [(unsigned int) x]: the value of [x] modulo 2^32. *)
Definition to_unsigned (x : Z) : Z := x mod UINT_MODULUS.

(** [x++] on a signed [int]; overflow is undefined. *)
Definition int_incr (x : Z) : option Z :=
  if decide (x < INT_MAX) then Some (x + 1) else None.

(** [x--] on a signed [int]; overflow is undefined. *)
Definition int_decr (x : Z) : option Z :=
  if decide (INT_MIN < x) then Some (x - 1) else None.

(** ** Data model *)

(** Modelled from the spec: [ts_hashmap.h] is not among the sources.  An entry
    holds one key, one value and the link to the next entry of its chain;
    the map owns the table of chain heads, the capacity, the live entry
    count [size], the operation counter [numOps] and the lock.  The
    integer fields are [int], like the [capacity] parameter of [initmap]
    and the [INT_MAX] sentinel. *)
Record ts_entry_t : Type := mk_entry { key : Z; value : Z }.

Record ts_hashmap_t : Type := mk_map {
  table : list (list ts_entry_t);
  numOps : Z;
  capacity : Z;
  size : Z
}.

(** ** initmap *)

(** Outcomes of the three resource acquisitions of [initmap]: the [malloc]
    of the map, the [malloc] of the table, [pthread_mutex_init]. *)
Record init_resources : Type := mk_resources {
  malloc_map : bool;
  malloc_table : bool;
  mutex_init : bool
}.

Definition all_acquired : init_resources := mk_resources true true true.

(** The table is the list of the buckets that the initialisation loop set
    to [NULL]: buckets [0 .. cap - 1], none when [cap] is not positive.  The
    function never compares [cap] with anything but the loop counter. *)
Definition initmap (r : init_resources) (cap : Z) : option ts_hashmap_t :=
  if negb (malloc_map r) then None
  else if negb (malloc_table r) then None
  else
    let tbl := replicate (Z.to_nat cap) [] in
    if negb (mutex_init r) then None
    else Some {| table := tbl; numOps := 0; capacity := cap; size := 0 |}.

(** ** Bucket index *)

(** [(unsigned int)key % map->capacity]: the [int] capacity is converted to
    [unsigned int] for the remainder; a zero divisor is undefined. *)
Definition bucket_index (k cap : Z) : option Z :=
  let divisor := to_unsigned cap in
  if decide (divisor = 0) then None
  else Some (to_unsigned k mod divisor).

(** [map->table[index]]: a read outside the table is undefined. *)
Definition bucket (m : ts_hashmap_t) (index : Z) : option (list ts_entry_t) :=
  table m !! Z.to_nat index.

(** ** get *)

(** The scan of [get]: the value of the first entry whose key matches. *)
Fixpoint chain_get (k : Z) (chain : list ts_entry_t) : option Z :=
  match chain with
  | [] => None
  | entry :: next =>
      if decide (key entry = k) then Some (value entry)
      else chain_get k next
  end.

Definition get (m : ts_hashmap_t) (k : Z) : option (Z * ts_hashmap_t) :=
  index ← bucket_index k (capacity m);
  chain ← bucket m index;
  match chain_get k chain with
  | Some v =>
      ops ← int_incr (numOps m);
      Some (v, {| table := table m; numOps := ops;
                  capacity := capacity m; size := size m |})
  | None =>
      ops ← int_incr (numOps m);
      Some (INT_MAX, {| table := table m; numOps := ops;
                        capacity := capacity m; size := size m |})
  end.

(** ** put *)

(** The scan of [put]: on the first entry whose key matches, the old value
    and the chain with that entry's value overwritten in place. *)
Fixpoint chain_put (k v : Z) (chain : list ts_entry_t)
  : option (Z * list ts_entry_t) :=
  match chain with
  | [] => None
  | entry :: next =>
      if decide (key entry = k)
      then Some (value entry, {| key := key entry; value := v |} :: next)
      else '(old, next') ← chain_put k v next; Some (old, entry :: next')
  end.

(** [alloc] tells whether the [malloc] of the new entry succeeds; it is only
    consulted when the scan found no entry for the key. *)
Definition put (alloc : bool) (m : ts_hashmap_t) (k v : Z)
  : option (Z * ts_hashmap_t) :=
  let oldValue := INT_MAX in
  index ← bucket_index k (capacity m);
  chain ← bucket m index;
  match chain_put k v chain with
  | Some (old, chain') =>
      ops ← int_incr (numOps m);
      Some (old, {| table := <[Z.to_nat index := chain']> (table m);
                    numOps := ops; capacity := capacity m; size := size m |})
  | None =>
      if alloc then
        let newEntry := {| key := k; value := v |} in
        sz ← int_incr (size m);
        ops ← int_incr (numOps m);
        Some (oldValue,
              {| table := <[Z.to_nat index := newEntry :: chain]> (table m);
                 numOps := ops; capacity := capacity m; size := sz |})
      else
        ops ← int_incr (numOps m);
        Some (oldValue, {| table := table m; numOps := ops;
                           capacity := capacity m; size := size m |})
  end.

(** ** del *)

(** The scan of [del]: the first entry whose key matches is spliced out of
    the chain; its value is returned with the remaining chain. *)
Fixpoint chain_del (k : Z) (chain : list ts_entry_t)
  : option (Z * list ts_entry_t) :=
  match chain with
  | [] => None
  | entry :: next =>
      if decide (key entry = k) then Some (value entry, next)
      else '(v, next') ← chain_del k next; Some (v, entry :: next')
  end.

Definition del (m : ts_hashmap_t) (k : Z) : option (Z * ts_hashmap_t) :=
  index ← bucket_index k (capacity m);
  let value := INT_MAX in
  chain ← bucket m index;
  match chain_del k chain with
  | Some (v, chain') =>
      sz ← int_decr (size m);
      ops ← int_incr (numOps m);
      Some (v, {| table := <[Z.to_nat index := chain']> (table m);
                  numOps := ops; capacity := capacity m; size := sz |})
  | None =>
      ops ← int_incr (numOps m);
      Some (value, {| table := table m; numOps := ops;
                      capacity := capacity m; size := size m |})
  end.

(** What the scan shared by the three operations finds for a key: the
    bucket is selected as they select it and searched as they search it.
    The outer [None] is an undefined bucket selection, the inner one a key
    without entry. *)
Definition scan (m : ts_hashmap_t) (k : Z) : option (option Z) :=
  index ← bucket_index k (capacity m);
  chain ← bucket m index;
  Some (chain_get k chain).

(** ** Sequences of operations *)

Inductive op : Type :=
  | Get (k : Z)
  | Put (alloc : bool) (k v : Z)
  | Del (k : Z).

Definition step (m : ts_hashmap_t) (o : op) : option (Z * ts_hashmap_t) :=
  match o with
  | Get k => get m k
  | Put alloc k v => put alloc m k v
  | Del k => del m k
  end.

(** The calls of [ops] issued one after the other; the results come back in
    call order with the final map. *)
Fixpoint run (ops : list op) (m : ts_hashmap_t)
  : option (list Z * ts_hashmap_t) :=
  match ops with
  | [] => Some ([], m)
  | o :: rest =>
      '(r, m') ← step m o;
      '(rs, m'') ← run rest m';
      Some (r :: rs, m'')
  end.

(** Maps a caller can hold: what [initmap] returned, and what completed
    calls made of it. *)
Inductive reachable : ts_hashmap_t → Prop :=
  | reachable_init r cap m :
      initmap r cap = Some m → reachable m
  | reachable_step m o res m' :
      reachable m → step m o = Some (res, m') → reachable m'.

(** ** Properties of maps *)

Definition keys (chain : list ts_entry_t) : list Z := key <$> chain.

(** The key has an entry in some bucket chain. *)
Definition present (m : ts_hashmap_t) (k : Z) : Prop :=
  Exists (λ chain, k ∈ keys chain) (table m).

#[global] Instance present_dec m k : Decision (present m k).
Proof. unfold present. apply _. Defined.

(** A key is in at most one chain and at most once in that chain. *)
Definition no_duplicate_keys (m : ts_hashmap_t) : Prop :=
  (∀ i chain, table m !! i = Some chain → NoDup (keys chain)) ∧
  (∀ i j ci cj k, table m !! i = Some ci → table m !! j = Some cj →
     k ∈ keys ci → k ∈ keys cj → i = j).

(** Every entry sits in the bucket its key hashes to. *)
Definition keys_at_home (m : ts_hashmap_t) : Prop :=
  ∀ i chain k, table m !! i = Some chain → k ∈ keys chain →
    bucket_index k (capacity m) = Some (Z.of_nat i).

(** The capacity is a positive [int] and the table has that many buckets. *)
Definition well_shaped (m : ts_hashmap_t) : Prop :=
  0 < capacity m ≤ INT_MAX ∧ length (table m) = Z.to_nat (capacity m).

(** No chain holds a key twice. *)
Definition chains_distinct (m : ts_hashmap_t) : Prop :=
  ∀ i chain, table m !! i = Some chain → NoDup (keys chain).

(** The number of entries that hang off the table. *)
Definition entry_count (m : ts_hashmap_t) : Z :=
  Z.of_nat (length (concat (table m))).

(** [size] is the number of entries. *)
Definition size_counts (m : ts_hashmap_t) : Prop := size m = entry_count m.

(** The representation invariant of a map in use. *)
Definition map_inv (m : ts_hashmap_t) : Prop :=
  well_shaped m ∧ keys_at_home m ∧ chains_distinct m ∧ size_counts m.

(** ** Example maps *)

(** The map of the specification's scenario after its two insertions. *)
Definition scenario_map : ts_hashmap_t :=
  {| table := [[]; [mk_entry 5 200; mk_entry 1 100]; []; []];
     numOps := 2; capacity := 4; size := 2 |}.

(** A map with a single bucket. *)
Definition unit_map (ops sz : Z) (chain : list ts_entry_t) : ts_hashmap_t :=
  {| table := [chain]; numOps := ops; capacity := 1; size := sz |}.

(** ** printmap *)

(** The calls of [printf] that [printmap] makes, with their arguments:
    ["[%d] -> "] for a bucket index, ["(%d,%d)"] for an entry, [" -> "]
    between two entries of a chain, and the end of line. *)
Inductive printf_call : Type :=
  | print_bucket (i : Z)
  | print_entry (k v : Z)
  | print_arrow
  | print_newline.

(** The inner loop of [printmap]: each entry, followed by an arrow when it
    has a successor. *)
Fixpoint print_chain (chain : list ts_entry_t) : list printf_call :=
  match chain with
  | [] => []
  | entry :: next =>
      print_entry (key entry) (value entry)
      :: (match next with [] => [] | _ :: _ => [print_arrow] end)
      ++ print_chain next
  end.

(** The body of the outer loop of [printmap] for bucket [i]. *)
Definition print_line (i : Z) (chain : list ts_entry_t) : list printf_call :=
  print_bucket i :: print_chain chain ++ [print_newline].

(** A loop [for (int i = ...; i < map->capacity; i++)] whose body starts by
    reading [map->table[i]]: [indices] are the values [i] takes; the calls
    made by the bodies come back in order.  A read outside the table is
    undefined. *)
Fixpoint for_each_bucket {A : Type} (body : Z → list ts_entry_t → list A)
    (m : ts_hashmap_t) (indices : list Z) : option (list A) :=
  match indices with
  | [] => Some []
  | i :: rest =>
      chain ← bucket m i;
      calls ← for_each_bucket body m rest;
      Some (body i chain ++ calls)
  end.

Definition printmap (m : ts_hashmap_t) : option (list printf_call) :=
  for_each_bucket print_line m (seqZ 0 (capacity m)).

(** The entries a sequence of [printf] calls shows. *)
Definition printed_entries (calls : list printf_call) : list ts_entry_t :=
  omap (λ c, match c with print_entry k v => Some (mk_entry k v) | _ => None end)
       calls.

(** The bucket indices a sequence of [printf] calls shows. *)
Definition printed_buckets (calls : list printf_call) : list Z :=
  omap (λ c, match c with print_bucket i => Some i | _ => None end) calls.

(** The number of lines a sequence of [printf] calls ends. *)
Definition printed_lines (calls : list printf_call) : nat :=
  length (omap (λ c, match c with print_newline => Some () | _ => None end)
               calls).

(** ** freeMap *)

(** The library calls of [freeMap], in the order it makes them. *)
Inductive teardown_call : Type :=
  | mutex_lock
  | free_entry (k v : Z)
  | free_table
  | mutex_unlock
  | mutex_destroy
  | free_map.

(** The inner loop of [freeMap]: every entry of the chain is freed, head
    first. *)
Fixpoint free_chain (chain : list ts_entry_t) : list teardown_call :=
  match chain with
  | [] => []
  | entry :: next => free_entry (key entry) (value entry) :: free_chain next
  end.

(** The argument is [None] for a [NULL] map. *)
Definition freeMap (map : option ts_hashmap_t) : option (list teardown_call) :=
  match map with
  | None => Some []
  | Some m =>
      frees ← for_each_bucket (λ _ chain, free_chain chain) m
                (seqZ 0 (capacity m));
      Some (mutex_lock :: frees
            ++ [free_table; mutex_unlock; mutex_destroy; free_map])
  end.

(** The entries a sequence of teardown calls frees. *)
Definition freed_entries (calls : list teardown_call) : list ts_entry_t :=
  omap (λ c, match c with free_entry k v => Some (mk_entry k v) | _ => None end)
       calls.

(** ** An ideal finite map to compare with *)

Definition op_key (o : op) : Z :=
  match o with Get k => k | Put _ k _ => k | Del k => k end.

(** The three operations on a finite map from keys to values, with the
    conventions of the C interface: the result is the value bound to the
    key before the call, or [INT_MAX] when there is none, and a [Put] for
    an unbound key binds it only when the allocation succeeds. *)
Definition ideal_step (M : gmap Z Z) (o : op) : Z * gmap Z Z :=
  match o with
  | Get k => (default INT_MAX (M !! k), M)
  | Put alloc k v =>
      (default INT_MAX (M !! k),
       match M !! k with
       | Some _ => <[k := v]> M
       | None => if alloc then <[k := v]> M else M
       end)
  | Del k => (default INT_MAX (M !! k), delete k M)
  end.

Fixpoint ideal_run (ops : list op) (M : gmap Z Z) : list Z * gmap Z Z :=
  match ops with
  | [] => ([], M)
  | o :: rest =>
      let '(r, M') := ideal_step M o in
      let '(rs, M'') := ideal_run rest M' in
      (r :: rs, M'')
  end.

(** The hash map [m] holds exactly the bindings of [M]: the scan of every
    key finds what [M] binds it to, and [size] is the number of bindings. *)
Definition represents (m : ts_hashmap_t) (M : gmap Z Z) : Prop :=
  chains_distinct m ∧ (∀ k, scan m k = Some (M !! k)) ∧
  size m = Z.of_nat (base.size M).

(** ** Proof helpers *)

(** Two descriptions of the bucket of one key in one map name the same index
    and the same chain. *)
Ltac same_bucket Hi Hi' Hc Hc' :=
  rewrite Hi in Hi'; injection Hi' as <-;
  rewrite Hc in Hc'; injection Hc' as <-.

(** Presence of a key in a concrete map is settled by evaluation. *)
Ltac absent_by_computation :=
  match goal with
  | |- ¬ present ?m ?k =>
      apply (bool_decide_eq_false_1 (present m k)); vm_compute; reflexivity
  end.

Ltac present_by_computation :=
  match goal with
  | |- present ?m ?k =>
      apply (bool_decide_eq_true_1 (present m k)); vm_compute; reflexivity
  end.

(** ** The scenario of the specification, run on the model *)

Example scenario :
  (m0 ← initmap all_acquired 4;
   run [Put true 1 100; Put true 5 200; Get 1; Get 5; Del 1; Get 1] m0)
  = Some ([INT_MAX; INT_MAX; 100; 200; 100; INT_MAX],
          {| table := [[]; [mk_entry 5 200]; []; []];
             numOps := 6; capacity := 4; size := 1 |}).
Proof. reflexivity. Qed.

(** ** Facts about the bucket index *)

Lemma to_unsigned_int_pos c : 0 < c ≤ INT_MAX → to_unsigned c = c.
Proof.
  intros Hc. unfold to_unsigned, UINT_MODULUS, INT_MAX in *.
  apply Z.mod_small. lia.
Qed.

Lemma bucket_index_pos k c :
  0 < c ≤ INT_MAX → bucket_index k c = Some (to_unsigned k mod c).
Proof.
  intros Hc. unfold bucket_index. cbv zeta.
  rewrite (to_unsigned_int_pos c Hc).
  destruct (decide (c = 0)) as [->|_]; [lia | done].
Qed.

Lemma bucket_index_nonneg k c i : bucket_index k c = Some i → 0 ≤ i.
Proof.
  unfold bucket_index. cbv zeta. intros H.
  destruct (decide (to_unsigned c = 0)) as [|Hne]; [done|].
  injection H as <-.
  assert (0 ≤ to_unsigned c) by (unfold to_unsigned, UINT_MODULUS; apply Z.mod_pos_bound; lia).
  apply Z.mod_pos_bound. lia.
Qed.

Lemma bucket_in_table m i chain :
  bucket m i = Some chain → (Z.to_nat i < length (table m))%nat.
Proof. unfold bucket. apply lookup_lt_Some. Qed.

Lemma bucket_well_shaped m k :
  well_shaped m →
  ∃ i chain, bucket_index k (capacity m) = Some i ∧ bucket m i = Some chain.
Proof.
  intros [Hc Hlen].
  exists (to_unsigned k mod capacity m).
  assert (0 ≤ to_unsigned k mod capacity m < capacity m) as Hi
    by (apply Z.mod_pos_bound; lia).
  destruct (lookup_lt_is_Some_2 (table m) (Z.to_nat (to_unsigned k mod capacity m)))
    as [chain Hchain]; [lia|].
  exists chain. split; [by apply bucket_index_pos | done].
Qed.

(** ** Facts about the three chain scans *)

Lemma chain_get_None k chain : chain_get k chain = None ↔ k ∉ keys chain.
Proof.
  induction chain as [|e next IH]; simpl.
  - split; [intros _; apply not_elem_of_nil | done].
  - rewrite not_elem_of_cons. destruct (decide (key e = k)) as [Heq|Hne].
    + split; [done | intros [Hk _]; congruence].
    + rewrite IH. split; [intros ?; split; [congruence | done] | tauto].
Qed.

Lemma chain_put_None k v chain : chain_put k v chain = None ↔ chain_get k chain = None.
Proof.
  induction chain as [|e next IH]; simpl; [done|].
  destruct (decide (key e = k)); [done|].
  rewrite <- IH. destruct (chain_put k v next) as [[old next']|]; simpl; split; done.
Qed.

Lemma chain_del_None k chain : chain_del k chain = None ↔ chain_get k chain = None.
Proof.
  induction chain as [|e next IH]; simpl; [done|].
  destruct (decide (key e = k)); [done|].
  rewrite <- IH. destruct (chain_del k next) as [[v next']|]; simpl; split; done.
Qed.

Lemma chain_get_head k v chain : chain_get k (mk_entry k v :: chain) = Some v.
Proof. simpl. by rewrite decide_True. Qed.

(** A successful overwrite returns what [get] would have returned, leaves
    the keys of the chain as they were, and makes [get] return the new
    value. *)
Lemma chain_put_Some k v chain old chain' :
  chain_put k v chain = Some (old, chain') →
  chain_get k chain = Some old ∧ chain_get k chain' = Some v ∧
  keys chain' = keys chain ∧ length chain' = length chain.
Proof.
  revert old chain'. induction chain as [|e next IH]; intros old chain'; simpl; [done|].
  destruct (decide (key e = k)) as [Heq|Hne].
  - intros [= <- <-]. simpl. by rewrite decide_True.
  - destruct (chain_put k v next) as [[old' next']|] eqn:Hput; simpl; [|done].
    intros [= <- <-]. destruct (IH _ _ eq_refl) as (Hg & Hg' & Hk & Hl).
    simpl. rewrite decide_False by done. unfold keys in *. simpl.
    by rewrite Hk, Hl.
Qed.

(** A successful splice returns what [get] would have returned and removes
    exactly one entry; the survivors keep their order. *)
Lemma chain_del_Some k chain v chain' :
  chain_del k chain = Some (v, chain') →
  chain_get k chain = Some v ∧ keys chain' `sublist_of` keys chain ∧
  length chain = S (length chain') ∧
  (NoDup (keys chain) → k ∉ keys chain').
Proof.
  revert v chain'. induction chain as [|e next IH]; intros v chain'; simpl; [done|].
  destruct (decide (key e = k)) as [Heq|Hne].
  - intros [= <- <-]. unfold keys. simpl.
    split; [done|]. split; [by apply sublist_cons|]. split; [done|].
    intros [Hk _]%list.NoDup_cons. by rewrite <- Heq.
  - destruct (chain_del k next) as [[v' next']|] eqn:Hdel; simpl; [|done].
    intros [= <- <-]. destruct (IH _ _ eq_refl) as (Hg & Hs & Hl & Hnd).
    unfold keys in *. simpl.
    split; [done|]. split; [by apply sublist_skip|]. split; [lia|].
    intros [_ Hnext]%list.NoDup_cons. apply not_elem_of_cons. split; [congruence | auto].
Qed.


(** ** What a completed call did *)

Lemma int_incr_Some x y : int_incr x = Some y ↔ x < INT_MAX ∧ y = x + 1.
Proof.
  unfold int_incr. destruct (decide (x < INT_MAX)).
  - split; [by intros [= <-] | by intros [_ ->]].
  - split; [done | by intros [? _]].
Qed.

Lemma int_decr_Some x y : int_decr x = Some y ↔ INT_MIN < x ∧ y = x - 1.
Proof.
  unfold int_decr. destruct (decide (INT_MIN < x)).
  - split; [by intros [= <-] | by intros [_ ->]].
  - split; [done | by intros [? _]].
Qed.

Lemma get_inv m k r m' :
  get m k = Some (r, m') →
  ∃ i chain,
    bucket_index k (capacity m) = Some i ∧ bucket m i = Some chain ∧
    r = default INT_MAX (chain_get k chain) ∧ numOps m < INT_MAX ∧
    m' = {| table := table m; numOps := numOps m + 1;
            capacity := capacity m; size := size m |}.
Proof.
  unfold get. intros H.
  destruct (bucket_index k (capacity m)) as [i|] eqn:Hi; simpl in H; [|done].
  destruct (bucket m i) as [chain|] eqn:Hc; simpl in H; [|done].
  exists i, chain.
  destruct (chain_get k chain) as [v|];
    destruct (int_incr (numOps m)) as [ops|] eqn:Hops; simpl in H; try done;
    apply int_incr_Some in Hops as [? ->]; injection H as <- <-; simpl;
    repeat (split; [done|]); done.
Qed.

Lemma put_inv alloc m k v r m' :
  put alloc m k v = Some (r, m') →
  ∃ i chain,
    bucket_index k (capacity m) = Some i ∧ bucket m i = Some chain ∧
    numOps m < INT_MAX ∧ numOps m' = numOps m + 1 ∧ capacity m' = capacity m ∧
    ((∃ chain', chain_put k v chain = Some (r, chain') ∧
        table m' = <[Z.to_nat i := chain']> (table m) ∧ size m' = size m)
     ∨ (chain_put k v chain = None ∧ alloc = true ∧ r = INT_MAX ∧
        size m < INT_MAX ∧
        table m' = <[Z.to_nat i := mk_entry k v :: chain]> (table m) ∧
        size m' = size m + 1)
     ∨ (chain_put k v chain = None ∧ alloc = false ∧ r = INT_MAX ∧
        table m' = table m ∧ size m' = size m)).
Proof.
  unfold put. cbv zeta. intros H.
  destruct (bucket_index k (capacity m)) as [i|] eqn:Hi; simpl in H; [|done].
  destruct (bucket m i) as [chain|] eqn:Hc; simpl in H; [|done].
  exists i, chain.
  destruct (chain_put k v chain) as [[old chain']|].
  - destruct (int_incr (numOps m)) as [ops|] eqn:Hops; simpl in H; [|done].
    apply int_incr_Some in Hops as [? ->]. injection H as <- <-. simpl.
    repeat (split; [done|]). left. by exists chain'.
  - destruct alloc.
    + destruct (int_incr (size m)) as [sz|] eqn:Hsz; simpl in H; [|done].
      destruct (int_incr (numOps m)) as [ops|] eqn:Hops; simpl in H; [|done].
      apply int_incr_Some in Hsz as [? ->]. apply int_incr_Some in Hops as [? ->].
      injection H as <- <-. simpl. repeat (split; [done|]). right. left. done.
    + destruct (int_incr (numOps m)) as [ops|] eqn:Hops; simpl in H; [|done].
      apply int_incr_Some in Hops as [? ->]. injection H as <- <-. simpl.
      repeat (split; [done|]). right. right. done.
Qed.

Lemma del_inv m k r m' :
  del m k = Some (r, m') →
  ∃ i chain,
    bucket_index k (capacity m) = Some i ∧ bucket m i = Some chain ∧
    numOps m < INT_MAX ∧ numOps m' = numOps m + 1 ∧ capacity m' = capacity m ∧
    ((∃ chain', chain_del k chain = Some (r, chain') ∧ INT_MIN < size m ∧
        table m' = <[Z.to_nat i := chain']> (table m) ∧ size m' = size m - 1)
     ∨ (chain_del k chain = None ∧ r = INT_MAX ∧
        table m' = table m ∧ size m' = size m)).
Proof.
  unfold del. cbv zeta. intros H.
  destruct (bucket_index k (capacity m)) as [i|] eqn:Hi; simpl in H; [|done].
  destruct (bucket m i) as [chain|] eqn:Hc; simpl in H; [|done].
  exists i, chain.
  destruct (chain_del k chain) as [[v chain']|].
  - destruct (int_decr (size m)) as [sz|] eqn:Hsz; simpl in H; [|done].
    destruct (int_incr (numOps m)) as [ops|] eqn:Hops; simpl in H; [|done].
    apply int_decr_Some in Hsz as [? ->]. apply int_incr_Some in Hops as [? ->].
    injection H as <- <-. simpl. repeat (split; [done|]). left. by exists chain'.
  - destruct (int_incr (numOps m)) as [ops|] eqn:Hops; simpl in H; [|done].
    apply int_incr_Some in Hops as [? ->]. injection H as <- <-. simpl.
    repeat (split; [done|]). right. done.
Qed.

(** ** When a call is defined *)

Lemma get_defined m k :
  well_shaped m → numOps m < INT_MAX → is_Some (get m k).
Proof.
  intros Hw Hops. destruct (bucket_well_shaped m k Hw) as (i & chain & Hi & Hc).
  unfold get. rewrite Hi. simpl. rewrite Hc. simpl.
  unfold int_incr. rewrite decide_True by done.
  destruct (chain_get k chain); simpl; eauto.
Qed.

Lemma put_defined alloc m k v :
  well_shaped m → numOps m < INT_MAX → size m < INT_MAX →
  is_Some (put alloc m k v).
Proof.
  intros Hw Hops Hsz. destruct (bucket_well_shaped m k Hw) as (i & chain & Hi & Hc).
  unfold put. cbv zeta. rewrite Hi. simpl. rewrite Hc. simpl.
  unfold int_incr. rewrite !decide_True by done.
  destruct (chain_put k v chain) as [[old chain']|]; [|destruct alloc]; simpl; eauto.
Qed.

Lemma del_defined m k :
  well_shaped m → numOps m < INT_MAX → INT_MIN < size m →
  is_Some (del m k).
Proof.
  intros Hw Hops Hsz. destruct (bucket_well_shaped m k Hw) as (i & chain & Hi & Hc).
  unfold del. cbv zeta. rewrite Hi. simpl. rewrite Hc. simpl.
  unfold int_incr, int_decr. rewrite !decide_True by done.
  destruct (chain_del k chain) as [[old chain']|]; simpl; eauto.
Qed.

(** ** The representation invariant is kept *)

Lemma keys_at_home_update m m' n chain chain' :
  capacity m' = capacity m →
  table m !! n = Some chain →
  table m' = <[n := chain']> (table m) →
  (∀ k, k ∈ keys chain' →
        k ∈ keys chain ∨ bucket_index k (capacity m) = Some (Z.of_nat n)) →
  keys_at_home m → keys_at_home m'.
Proof.
  intros Hcap Hn Htab Hkeys Hhome j c k Hj Hk. rewrite Hcap.
  rewrite Htab in Hj. apply list_lookup_insert_Some in Hj as [(<- & <- & _)|[_ Hj]].
  - destruct (Hkeys k Hk) as [Hold|Hnew]; [by eapply Hhome | done].
  - by eapply Hhome.
Qed.

Lemma chains_distinct_update m m' n chain' :
  table m' = <[n := chain']> (table m) →
  NoDup (keys chain') →
  chains_distinct m → chains_distinct m'.
Proof.
  intros Htab Hnd Hdist j c Hj.
  rewrite Htab in Hj. apply list_lookup_insert_Some in Hj as [(_ & <- & _)|[_ Hj]].
  - done.
  - by eapply Hdist.
Qed.

Lemma keys_at_home_same m m' :
  capacity m' = capacity m → table m' = table m →
  keys_at_home m → keys_at_home m'.
Proof. unfold keys_at_home. intros -> ->. done. Qed.

Lemma chains_distinct_same m m' :
  table m' = table m → chains_distinct m → chains_distinct m'.
Proof. unfold chains_distinct. intros ->. done. Qed.

Lemma index_to_nat k cap i :
  bucket_index k cap = Some i → Z.of_nat (Z.to_nat i) = i.
Proof. intros H%bucket_index_nonneg. lia. Qed.

Lemma step_keys_at_home m o r m' :
  step m o = Some (r, m') → keys_at_home m → keys_at_home m'.
Proof.
  destruct o as [k|alloc k v|k]; simpl; intros Hstep.
  - apply get_inv in Hstep as (i & chain & _ & _ & _ & _ & ->). done.
  - apply put_inv in Hstep
      as (i & chain & Hi & Hc & _ & _ & Hcap &
          [(chain' & Hput & Htab & _)|[(Hput & _ & _ & _ & Htab & _)|(_ & _ & _ & Htab & _)]]).
    + apply chain_put_Some in Hput as (_ & _ & Hkeys & _).
      eapply keys_at_home_update; [done..|]. rewrite Hkeys. auto.
    + eapply keys_at_home_update; [done..|].
      intros k' [->|Hk']%elem_of_cons; [right | by left].
      by rewrite (index_to_nat _ _ _ Hi).
    + by apply keys_at_home_same.
  - apply del_inv in Hstep
      as (i & chain & Hi & Hc & _ & _ & Hcap &
          [(chain' & Hdel & _ & Htab & _)|(_ & _ & Htab & _)]).
    + apply chain_del_Some in Hdel as (_ & Hsub & _ & _).
      eapply keys_at_home_update; [done..|].
      intros k' Hk'. left. by eapply elem_of_sublist.
    + by apply keys_at_home_same.
Qed.

Lemma step_chains_distinct m o r m' :
  step m o = Some (r, m') → chains_distinct m → chains_distinct m'.
Proof.
  destruct o as [k|alloc k v|k]; simpl; intros Hstep Hdist.
  - apply get_inv in Hstep as (i & chain & _ & _ & _ & _ & ->). done.
  - apply put_inv in Hstep
      as (i & chain & Hi & Hc & _ & _ & Hcap &
          [(chain' & Hput & Htab & _)|[(Hput & _ & _ & _ & Htab & _)|(_ & _ & _ & Htab & _)]]).
    + apply chain_put_Some in Hput as (_ & _ & Hkeys & _).
      eapply chains_distinct_update; [done| |done]. rewrite Hkeys. by eapply Hdist.
    + eapply chains_distinct_update; [done| |done].
      unfold keys. simpl. apply list.NoDup_cons. split.
      * apply chain_get_None. by apply (chain_put_None k v).
      * by eapply Hdist.
    + by eapply chains_distinct_same.
  - apply del_inv in Hstep
      as (i & chain & Hi & Hc & _ & _ & Hcap &
          [(chain' & Hdel & _ & Htab & _)|(_ & _ & Htab & _)]).
    + apply chain_del_Some in Hdel as (_ & Hsub & _ & _).
      eapply chains_distinct_update; [done| |done].
      apply (sublist_NoDup (keys chain') (keys chain)); [by eapply Hdist | done].
    + by eapply chains_distinct_same.
Qed.

Lemma step_numOps m o r m' :
  step m o = Some (r, m') → numOps m < INT_MAX ∧ numOps m' = numOps m + 1.
Proof.
  destruct o as [k|alloc k v|k]; simpl; intros Hstep.
  - apply get_inv in Hstep as (i & chain & _ & _ & _ & ? & ->). done.
  - apply put_inv in Hstep as (i & chain & _ & _ & ? & ? & _). done.
  - apply del_inv in Hstep as (i & chain & _ & _ & ? & ? & _). done.
Qed.

Lemma step_shape m o r m' :
  step m o = Some (r, m') →
  capacity m' = capacity m ∧ length (table m') = length (table m) ∧
  size m - 1 ≤ size m' ≤ size m + 1.
Proof.
  destruct o as [k|alloc k v|k]; simpl; intros Hstep.
  - apply get_inv in Hstep as (i & chain & _ & _ & _ & ? & ->). simpl. lia.
  - apply put_inv in Hstep
      as (i & chain & _ & _ & _ & _ & Hcap &
          [(chain' & _ & -> & ->)|[(_ & _ & _ & _ & -> & ->)|(_ & _ & _ & -> & ->)]]);
      rewrite ?length_insert; lia.
  - apply del_inv in Hstep
      as (i & chain & _ & _ & _ & _ & Hcap &
          [(chain' & _ & _ & -> & ->)|(_ & _ & -> & ->)]);
      rewrite ?length_insert; lia.
Qed.

Lemma step_well_shaped m o r m' :
  step m o = Some (r, m') → well_shaped m → well_shaped m'.
Proof.
  intros (Hcap & Hlen & _)%step_shape [Hc Hl]. unfold well_shaped.
  by rewrite Hcap, Hlen.
Qed.

Lemma entry_count_update m m' n chain chain' :
  table m !! n = Some chain →
  table m' = <[n := chain']> (table m) →
  entry_count m' = entry_count m - Z.of_nat (length chain) + Z.of_nat (length chain').
Proof.
  intros Hn Htab. unfold entry_count.
  assert (length (concat (table m))
          = (length (concat (take n (table m))) + length chain
             + length (concat (drop (S n) (table m))))%nat) as Hold.
  { rewrite <- (take_drop_middle _ _ _ Hn) at 1.
    rewrite concat_app, concat_cons, !length_app. lia. }
  rewrite Htab, insert_take_drop by (by eapply lookup_lt_Some).
  rewrite concat_app, concat_cons, !length_app. lia.
Qed.

Lemma step_size_counts m o r m' :
  step m o = Some (r, m') → size_counts m → size_counts m'.
Proof.
  unfold size_counts. destruct o as [k|alloc k v|k]; simpl; intros Hstep Hsz.
  - apply get_inv in Hstep as (i & chain & _ & _ & _ & _ & ->). done.
  - apply put_inv in Hstep
      as (i & chain & Hi & Hc & _ & _ & _ &
          [(chain' & Hput & Htab & ->)
          |[(_ & _ & _ & _ & Htab & ->)|(_ & _ & _ & Htab & ->)]]).
    + apply chain_put_Some in Hput as (_ & _ & _ & Hlen).
      rewrite (entry_count_update m m' _ _ _ Hc Htab). lia.
    + rewrite (entry_count_update m m' _ _ _ Hc Htab). simpl length. lia.
    + unfold entry_count. by rewrite Htab.
  - apply del_inv in Hstep
      as (i & chain & Hi & Hc & _ & _ & _ &
          [(chain' & Hdel & _ & Htab & ->)|(_ & _ & Htab & ->)]).
    + apply chain_del_Some in Hdel as (_ & _ & Hlen & _).
      rewrite (entry_count_update m m' _ _ _ Hc Htab). lia.
    + unfold entry_count. by rewrite Htab.
Qed.

Lemma step_map_inv m o r m' :
  step m o = Some (r, m') → map_inv m → map_inv m'.
Proof.
  intros Hstep (Hw & Hh & Hd & Hs). split; [|split; [|split]].
  - by eapply step_well_shaped.
  - by eapply step_keys_at_home.
  - by eapply step_chains_distinct.
  - by eapply step_size_counts.
Qed.

Lemma step_defined m o :
  well_shaped m → numOps m < INT_MAX → INT_MIN < size m < INT_MAX →
  is_Some (step m o).
Proof.
  intros Hw Hops [Hlo Hhi]. destruct o as [k|alloc k v|k]; simpl.
  - by apply get_defined.
  - by apply put_defined.
  - by apply del_defined.
Qed.

(** ** A map fresh from [initmap] *)

Lemma initmap_Some r cap m :
  initmap r cap = Some m ↔
  malloc_map r = true ∧ malloc_table r = true ∧ mutex_init r = true ∧
  m = {| table := replicate (Z.to_nat cap) []; numOps := 0;
         capacity := cap; size := 0 |}.
Proof.
  unfold initmap. destruct r as [[] [] []]; simpl;
    (split; [intros [= <-] | intros (? & ? & ? & ->)]); done.
Qed.

Lemma initmap_keys_at_home r cap m : initmap r cap = Some m → keys_at_home m.
Proof.
  intros (_ & _ & _ & ->)%initmap_Some i chain k. simpl.
  intros [-> _]%lookup_replicate Hk. by apply elem_of_nil in Hk.
Qed.

Lemma initmap_chains_distinct r cap m : initmap r cap = Some m → chains_distinct m.
Proof.
  intros (_ & _ & _ & ->)%initmap_Some i chain. simpl.
  intros [-> _]%lookup_replicate. apply NoDup_nil_2.
Qed.

Lemma initmap_well_shaped r cap m :
  0 < cap ≤ INT_MAX → initmap r cap = Some m → well_shaped m.
Proof.
  intros Hcap (_ & _ & _ & ->)%initmap_Some. split; simpl; [done|].
  by rewrite length_replicate.
Qed.

Lemma concat_replicate_nil (n : nat) : concat (replicate n []) = @nil ts_entry_t.
Proof. induction n as [|n IH]; [done|]. simpl. exact IH. Qed.

Lemma initmap_size_counts r cap m : initmap r cap = Some m → size_counts m.
Proof.
  intros (_ & _ & _ & ->)%initmap_Some. unfold size_counts, entry_count. simpl.
  by rewrite concat_replicate_nil.
Qed.

Lemma initmap_map_inv r cap m :
  0 < cap ≤ INT_MAX → initmap r cap = Some m → map_inv m.
Proof.
  intros Hcap Hinit. split; [|split; [|split]].
  - by eapply initmap_well_shaped.
  - by eapply initmap_keys_at_home.
  - by eapply initmap_chains_distinct.
  - by eapply initmap_size_counts.
Qed.

Lemma reachable_chains r_m :
  reachable r_m → keys_at_home r_m ∧ chains_distinct r_m.
Proof.
  induction 1 as [r cap m Hinit|m o res m' _ [IHh IHd] Hstep].
  - split; [by eapply initmap_keys_at_home | by eapply initmap_chains_distinct].
  - split; [by eapply step_keys_at_home | by eapply step_chains_distinct].
Qed.

Lemma home_distinct_no_duplicates m :
  keys_at_home m → chains_distinct m → no_duplicate_keys m.
Proof.
  intros Hhome Hdist. split; [done|].
  intros i j ci cj k Hi Hj Hki Hkj.
  pose proof (Hhome _ _ _ Hi Hki) as Ei. pose proof (Hhome _ _ _ Hj Hkj) as Ej.
  rewrite Ei in Ej. injection Ej. lia.
Qed.

(** ** Presence of a key *)

Lemma present_lookup m k :
  present m k ↔ ∃ i chain, table m !! i = Some chain ∧ k ∈ keys chain.
Proof.
  unfold present. rewrite list.Exists_exists. split.
  - intros (chain & [i Hi]%list_elem_of_lookup & Hk). eauto.
  - intros (i & chain & Hi & Hk). exists chain. split; [|done].
    apply list_elem_of_lookup. eauto.
Qed.

(** A key that is nowhere in the table is not found by any scan. *)
Lemma absent_scan m k i chain :
  ¬ present m k → bucket m i = Some chain → chain_get k chain = None.
Proof.
  intros Habs Hc. apply chain_get_None. intros Hk. apply Habs.
  apply present_lookup. unfold bucket in Hc. eauto.
Qed.

(** In a map that satisfies the invariant a present key is found by the
    scan of its own bucket. *)
Lemma present_scan m k i chain :
  keys_at_home m → present m k →
  bucket_index k (capacity m) = Some i → bucket m i = Some chain →
  is_Some (chain_get k chain).
Proof.
  intros Hhome (j & c & Hj & Hk)%present_lookup Hi Hc.
  pose proof (Hhome _ _ _ Hj Hk) as Ej. rewrite Hi in Ej. injection Ej as ->.
  unfold bucket in Hc. rewrite Nat2Z.id, Hj in Hc. injection Hc as <-.
  destruct (chain_get k c) eqn:Hg; [eauto|]. by apply chain_get_None in Hg.
Qed.

(** ** Example maps *)

Lemma scenario_map_run :
  (m0 ← initmap all_acquired 4; run [Put true 1 100; Put true 5 200] m0)
  = Some ([INT_MAX; INT_MAX], scenario_map).
Proof. reflexivity. Qed.

Lemma scenario_map_inv : map_inv scenario_map.
Proof.
  apply (step_map_inv
           {| table := [[]; [mk_entry 1 100]; []; []];
              numOps := 1; capacity := 4; size := 1 |}
           (Put true 5 200) INT_MAX); [reflexivity|].
  apply (step_map_inv
           {| table := [[]; []; []; []]; numOps := 0; capacity := 4; size := 0 |}
           (Put true 1 100) INT_MAX); [reflexivity|].
  apply (initmap_map_inv all_acquired 4); [done | reflexivity].
Qed.

Lemma scenario_map_reachable : reachable scenario_map.
Proof.
  apply (reachable_step
           {| table := [[]; [mk_entry 1 100]; []; []];
              numOps := 1; capacity := 4; size := 1 |}
           (Put true 5 200) INT_MAX); [|reflexivity].
  apply (reachable_step
           {| table := [[]; []; []; []]; numOps := 0; capacity := 4; size := 0 |}
           (Put true 1 100) INT_MAX); [|reflexivity].
  by apply (reachable_init all_acquired 4).
Qed.

(** ** Bucket selection *)

(** C3. For a strictly positive capacity [c] and any key [k], negative ones
    included, the bucket index that [get], [put] and [del] compute is the
    unsigned reading of [k] (its value modulo 2^32) reduced modulo [c], and
    it lies in [0, c): [get] and [del] answer from the chain of that bucket,
    [put] answers from it too, and no call changes any other bucket.  The
    three calls do complete when the table has [c] buckets and the two
    counters have room. *)
Theorem bucket_index_unsigned_mod m k :
  0 < capacity m ≤ INT_MAX →
  let i := (k mod 2 ^ 32) mod capacity m in
  bucket_index k (capacity m) = Some i ∧ 0 ≤ i < capacity m ∧
  (∀ r m', get m k = Some (r, m') →
     ∃ chain, table m !! Z.to_nat i = Some chain ∧
              r = default INT_MAX (chain_get k chain) ∧ table m' = table m) ∧
  (∀ alloc v r m', put alloc m k v = Some (r, m') →
     ∃ chain, table m !! Z.to_nat i = Some chain ∧
              r = default INT_MAX (chain_get k chain) ∧
              ∀ j, j ≠ Z.to_nat i → table m' !! j = table m !! j) ∧
  (∀ r m', del m k = Some (r, m') →
     ∃ chain, table m !! Z.to_nat i = Some chain ∧
              r = default INT_MAX (chain_get k chain) ∧
              ∀ j, j ≠ Z.to_nat i → table m' !! j = table m !! j) ∧
  (length (table m) = Z.to_nat (capacity m) →
   numOps m < INT_MAX → INT_MIN < size m < INT_MAX →
     is_Some (get m k) ∧ (∀ alloc v, is_Some (put alloc m k v)) ∧
     is_Some (del m k)).
Proof.
  intros Hcap i.
  assert (bucket_index k (capacity m) = Some i) as Hi
    by (by rewrite bucket_index_pos).
  split; [done|]. split; [apply Z.mod_pos_bound; lia|].
  split; [|split; [|split]].
  - intros r m' (i' & chain & Hi' & Hc & -> & _ & ->)%get_inv.
    rewrite Hi in Hi'. injection Hi' as <-. by exists chain.
  - intros alloc v r m'
      (i' & chain & Hi' & Hc & _ & _ & _ &
       [(chain' & Hput & Htab & _)
       |[(Hput & _ & -> & _ & Htab & _)|(Hput & _ & -> & Htab & _)]])%put_inv;
      rewrite Hi in Hi'; injection Hi' as <-; exists chain; (split; [done|]).
    + apply chain_put_Some in Hput as (-> & _). split; [done|].
      intros j Hj. rewrite Htab. by apply list_lookup_insert_ne.
    + apply chain_put_None in Hput as ->. split; [done|].
      intros j Hj. rewrite Htab. by apply list_lookup_insert_ne.
    + apply chain_put_None in Hput as ->. split; [done|].
      intros j Hj. by rewrite Htab.
  - intros r m'
      (i' & chain & Hi' & Hc & _ & _ & _ &
       [(chain' & Hdel & _ & Htab & _)|(Hdel & -> & Htab & _)])%del_inv;
      rewrite Hi in Hi'; injection Hi' as <-; exists chain; (split; [done|]).
    + apply chain_del_Some in Hdel as (-> & _). split; [done|].
      intros j Hj. rewrite Htab. by apply list_lookup_insert_ne.
    + apply chain_del_None in Hdel as ->. split; [done|].
      intros j Hj. by rewrite Htab.
  - intros Hlen Hops [Hlo Hhi].
    assert (well_shaped m) as Hw by done.
    split; [by apply get_defined|]. split; [|by apply del_defined].
    intros alloc v. by apply put_defined.
Qed.

Lemma bucket_index_unsigned_mod_witness :
  0 < capacity scenario_map ≤ INT_MAX ∧
  get scenario_map (-7)
  = Some (INT_MAX, {| table := table scenario_map; numOps := 3;
                      capacity := 4; size := 2 |}) ∧
  bucket_index (-7) (capacity scenario_map) = Some 1.
Proof.
  assert (0 < capacity scenario_map ≤ INT_MAX) as H by (by vm_compute).
  split; [exact H|]. split; [reflexivity|].
  exact (proj1 (bucket_index_unsigned_mod scenario_map (-7) H)).
Defined.

(** ** Misses *)

(** C7. For a key with no entry in the map, [get] returns the NOT_FOUND
    sentinel, and [del] returns the sentinel and changes neither [size] nor
    any bucket chain; both calls complete on a well-shaped map whose
    operation counter can still grow.  The sentinel is [INT_MAX], the
    largest value an [int] can hold. *)
Theorem miss_returns_sentinel m k :
  ¬ present m k →
  (∀ r m', get m k = Some (r, m') → r = INT_MAX) ∧
  (∀ r m', del m k = Some (r, m') →
     r = INT_MAX ∧ size m' = size m ∧ table m' = table m) ∧
  (well_shaped m → numOps m < INT_MAX →
     is_Some (get m k) ∧ is_Some (del m k)) ∧
  INT_MAX = 2 ^ 31 - 1 ∧ (∀ x, INT_MIN ≤ x ≤ INT_MAX → x ≤ INT_MAX).
Proof.
  intros Habs. split; [|split; [|split; [|split]]].
  - intros r m' (i & chain & _ & Hc & -> & _)%get_inv.
    by rewrite (absent_scan m k i chain).
  - intros r m'
      (i & chain & _ & Hc & _ & _ & _ &
       [(chain' & Hdel & _)|(_ & -> & -> & ->)])%del_inv; [|done].
    apply chain_del_Some in Hdel as (Hg & _).
    by rewrite (absent_scan m k i chain) in Hg.
  - intros Hw Hops. split; [by apply get_defined|].
    destruct (bucket_well_shaped m k Hw) as (i & chain & Hi & Hc).
    unfold del. cbv zeta. rewrite Hi. simpl. rewrite Hc. simpl.
    assert (chain_del k chain = None) as ->
      by (by apply chain_del_None, (absent_scan m k i)).
    unfold int_incr. rewrite decide_True by done. simpl. eauto.
  - reflexivity.
  - intros x [_ Hx]. exact Hx.
Qed.

Lemma miss_returns_sentinel_witness :
  ¬ present scenario_map 9 ∧
  get scenario_map 9
  = Some (INT_MAX, {| table := table scenario_map; numOps := 3;
                      capacity := 4; size := 2 |}) ∧
  ∀ r m', get scenario_map 9 = Some (r, m') → r = INT_MAX.
Proof.
  assert (¬ present scenario_map 9) as H
    by absent_by_computation.
  split; [exact H|]. split; [reflexivity|].
  exact (proj1 (miss_returns_sentinel scenario_map 9 H)).
Defined.

(** ** Allocation failure in [put] *)

(** C8. For a key with no entry in the map, a [put] whose entry allocation
    fails still increments [numOps] by exactly one, leaves [size], the
    capacity and every bucket chain unchanged, returns the NOT_FOUND
    sentinel and keeps the representation invariant; the call completes on
    a well-shaped map whose operation counter can still grow. *)
Theorem put_alloc_failure m k v :
  ¬ present m k →
  (∀ r m', put false m k v = Some (r, m') →
     r = INT_MAX ∧ numOps m' = numOps m + 1 ∧ size m' = size m ∧
     table m' = table m ∧ capacity m' = capacity m ∧
     (map_inv m → map_inv m')) ∧
  (well_shaped m → numOps m < INT_MAX → is_Some (put false m k v)).
Proof.
  intros Habs. split.
  - intros r m' Hput. pose proof (step_map_inv m (Put false k v) r m' Hput) as Hinv.
    apply put_inv in Hput
      as (i & chain & _ & Hc & _ & Hops & Hcap &
          [(chain' & Hput & _)|[(_ & [=] & _)|(_ & _ & -> & Htab & Hsz)]]).
    + apply chain_put_Some in Hput as (Hg & _).
      by rewrite (absent_scan m k i chain) in Hg.
    + done.
  - intros Hw Hops.
    destruct (bucket_well_shaped m k Hw) as (i & chain & Hi & Hc).
    unfold put. cbv zeta. rewrite Hi. simpl. rewrite Hc. simpl.
    assert (chain_put k v chain = None) as ->
      by (by apply chain_put_None, (absent_scan m k i)).
    unfold int_incr. rewrite decide_True by done. simpl. eauto.
Qed.

Lemma put_alloc_failure_witness :
  ¬ present scenario_map 9 ∧
  put false scenario_map 9 77
  = Some (INT_MAX, {| table := table scenario_map; numOps := 3;
                      capacity := 4; size := 2 |}) ∧
  ∀ r m', put false scenario_map 9 77 = Some (r, m') →
    r = INT_MAX ∧ numOps m' = numOps scenario_map + 1 ∧
    size m' = size scenario_map ∧ table m' = table scenario_map ∧
    capacity m' = capacity scenario_map ∧
    (map_inv scenario_map → map_inv m').
Proof.
  assert (¬ present scenario_map 9) as H
    by absent_by_computation.
  split; [exact H|]. split; [reflexivity|].
  exact (proj1 (put_alloc_failure scenario_map 9 77 H)).
Defined.

(** ** No duplicate keys *)

(** Overwriting the value of a present key leaves the keys of every chain
    as they were. *)
Lemma put_present_keys alloc m k v r m' :
  keys_at_home m → present m k → put alloc m k v = Some (r, m') →
  keys <$> table m' = keys <$> table m.
Proof.
  intros Hhome Hpres
    (i & chain & Hi & Hc & _ & _ & _ &
     [(chain' & Hput & -> & _)|[(Hput & _)|(Hput & _)]])%put_inv.
  - apply chain_put_Some in Hput as (_ & _ & Hkeys & _).
    rewrite list_fmap_insert, Hkeys. apply list_insert_id.
    unfold bucket in Hc. by rewrite list_lookup_fmap, Hc.
  - destruct (present_scan m k i chain Hhome Hpres Hi Hc) as [x Hx].
    apply chain_put_None in Hput. congruence.
  - destruct (present_scan m k i chain Hhome Hpres Hi Hc) as [x Hx].
    apply chain_put_None in Hput. congruence.
Qed.

(** C9. In every map reachable from a freshly created one through completed
    [get], [put] and [del] calls, a key is in at most one bucket chain and
    at most once in that chain; every further call keeps it so, and a [put]
    for a key that is already present adds no entry: the keys of every
    chain stay as they were. *)
Theorem reachable_no_duplicate_keys m :
  reachable m →
  no_duplicate_keys m ∧
  (∀ o r m', step m o = Some (r, m') → no_duplicate_keys m') ∧
  (∀ alloc k v r m', present m k → put alloc m k v = Some (r, m') →
     keys <$> table m' = keys <$> table m).
Proof.
  intros Hreach. destruct (reachable_chains m Hreach) as [Hhome Hdist].
  split; [by apply home_distinct_no_duplicates|]. split.
  - intros o r m' Hstep. apply home_distinct_no_duplicates.
    + by eapply step_keys_at_home.
    + by eapply step_chains_distinct.
  - intros alloc k v r m' Hpres Hput. by eapply put_present_keys.
Qed.

Lemma reachable_no_duplicate_keys_witness :
  reachable scenario_map ∧ no_duplicate_keys scenario_map.
Proof.
  split; [exact scenario_map_reachable|].
  exact (proj1 (reachable_no_duplicate_keys scenario_map scenario_map_reachable)).
Defined.

(** ** Counting operations *)

Lemma run_numOps ops m rs m' :
  run ops m = Some (rs, m') → numOps m' = numOps m + Z.of_nat (length ops).
Proof.
  revert m rs m'. induction ops as [|o rest IH]; intros m rs m'; simpl.
  - intros [= _ <-]. lia.
  - destruct (step m o) as [[r m1]|] eqn:Hstep; simpl; [|done].
    destruct (run rest m1) as [[rs' m2]|] eqn:Hrun; simpl; [|done].
    intros [= _ <-]. apply step_numOps in Hstep as [_ Hstep].
    rewrite (IH _ _ _ Hrun), Hstep. lia.
Qed.

Lemma run_numOps_bound ops m rs m' :
  run ops m = Some (rs, m') → numOps m ≤ INT_MAX → numOps m' ≤ INT_MAX.
Proof.
  revert m rs m'. induction ops as [|o rest IH]; intros m rs m'; simpl.
  - by intros [= _ <-].
  - destruct (step m o) as [[r m1]|] eqn:Hstep; simpl; [|done].
    destruct (run rest m1) as [[rs' m2]|] eqn:Hrun; simpl; [|done].
    intros [= _ <-] _. apply step_numOps in Hstep as [Hlt Hstep].
    apply (IH _ _ _ Hrun). lia.
Qed.

Lemma run_map_inv ops m rs m' :
  run ops m = Some (rs, m') → map_inv m → map_inv m'.
Proof.
  revert m rs m'. induction ops as [|o rest IH]; intros m rs m'; simpl.
  - by intros [= _ <-].
  - destruct (step m o) as [[r m1]|] eqn:Hstep; simpl; [|done].
    destruct (run rest m1) as [[rs' m2]|] eqn:Hrun; simpl; [|done].
    intros [= _ <-] Hinv. apply (IH _ _ _ Hrun). by eapply step_map_inv.
Qed.

(** Every map made by [initmap] with a positive [int] capacity and then
    used through completed calls satisfies the representation invariant. *)
Lemma created_map_inv r cap m0 ops rs m :
  0 < cap ≤ INT_MAX → initmap r cap = Some m0 → run ops m0 = Some (rs, m) →
  map_inv m.
Proof.
  intros Hcap Hinit Hrun. apply (run_map_inv _ _ _ _ Hrun).
  by eapply initmap_map_inv.
Qed.

(** Between them [size] and [numOps] keep every call defined until the
    operation counter reaches [INT_MAX]. *)
Lemma run_defined ops m :
  well_shaped m → - numOps m ≤ size m ≤ numOps m →
  numOps m + Z.of_nat (length ops) ≤ INT_MAX →
  is_Some (run ops m).
Proof.
  revert m. induction ops as [|o rest IH]; intros m Hw Hsz Hops; simpl; [eauto|].
  assert (INT_MIN < size m < INT_MAX) as Hsz'
    by (unfold INT_MIN, INT_MAX in *; simpl length in Hops; lia).
  destruct (step_defined m o Hw) as [[r m1] Hstep];
    [simpl length in Hops; lia | done |].
  rewrite Hstep. simpl.
  destruct (step_numOps _ _ _ _ Hstep) as [_ Hn].
  destruct (step_shape _ _ _ _ Hstep) as (_ & _ & Hs).
  destruct (IH m1) as [[rs m2] Hrun].
  - by eapply step_well_shaped.
  - lia.
  - simpl length in Hops. lia.
  - rewrite Hrun. simpl. eauto.
Qed.

(** Counting on a one-bucket map with [get] alone. *)
Lemma unit_map_get c :
  c < INT_MAX →
  get (unit_map c 0 []) 0 = Some (INT_MAX, unit_map (c + 1) 0 []).
Proof.
  intros Hc. unfold get, unit_map. cbn [capacity numOps table size].
  rewrite bucket_index_pos by done. cbn.
  unfold int_incr. by rewrite decide_True.
Qed.

Lemma unit_map_gets n :
  ∀ c, c + Z.of_nat n ≤ INT_MAX →
    run (replicate n (Get 0)) (unit_map c 0 [])
    = Some (replicate n INT_MAX, unit_map (c + Z.of_nat n) 0 []).
Proof.
  induction n as [|n IH]; intros c Hc.
  - cbn [replicate run]. by rewrite Z.add_0_r.
  - cbn [replicate run step]. rewrite unit_map_get by lia. cbn [mbind option_bind].
    rewrite IH by lia. cbn [mbind option_bind].
    by replace (c + 1 + Z.of_nat n) with (c + Z.of_nat (S n)) by lia.
Qed.

Lemma unit_map_counts N :
  0 ≤ N ≤ INT_MAX →
  run (replicate (Z.to_nat N) (Get 0)) (unit_map 0 0 [])
  = Some (replicate (Z.to_nat N) INT_MAX, unit_map N 0 []).
Proof.
  intros HN. rewrite unit_map_gets by lia.
  by replace (0 + Z.of_nat (Z.to_nat N)) with N by lia.
Qed.

(** No run counts past [INT_MAX]: the increment that would has no defined
    result. *)
Lemma run_gets_past_INT_MAX N m0 k :
  numOps m0 = 0 → INT_MAX < N →
  run (replicate (Z.to_nat N) (Get k)) m0 = None.
Proof.
  intros H0 HN.
  destruct (run (replicate (Z.to_nat N) (Get k)) m0) as [[rs m]|] eqn:Hrun;
    [exfalso|done].
  pose proof (run_numOps_bound _ _ _ _ Hrun) as Hbound.
  apply run_numOps in Hrun. rewrite length_replicate in Hrun.
  assert (0 ≤ INT_MAX) by done. lia.
Qed.

(** C4, as amended.  On a freshly created map of positive [int] capacity,
    every sequence of N calls of [get], [put] and [del] (hits, misses,
    inserts, overwrites, failed allocations) with N at most [INT_MAX]
    completes and leaves [numOps] equal to N; so does every prefix of the
    sequence, and each single completed call increments [numOps] by
    exactly one. *)
Theorem numOps_counts_calls r cap m0 ops :
  0 < cap ≤ INT_MAX → initmap r cap = Some m0 →
  Z.of_nat (length ops) ≤ INT_MAX →
  (∃ rs m, run ops m0 = Some (rs, m) ∧ numOps m = Z.of_nat (length ops)) ∧
  (∀ j, (j ≤ length ops)%nat →
     ∃ rs m, run (take j ops) m0 = Some (rs, m) ∧ numOps m = Z.of_nat j) ∧
  (∀ m o res m', step m o = Some (res, m') → numOps m' = numOps m + 1).
Proof.
  intros Hcap Hinit Hlen.
  assert (∀ l, Z.of_nat (length l) ≤ INT_MAX →
            ∃ rs m, run l m0 = Some (rs, m) ∧ numOps m = Z.of_nat (length l))
    as Hcount.
  { intros l Hl. destruct (run_defined l m0) as [[rs m] Hrun].
    - by eapply initmap_well_shaped.
    - apply initmap_Some in Hinit as (_ & _ & _ & ->). simpl. lia.
    - apply initmap_Some in Hinit as (_ & _ & _ & ->). simpl. lia.
    - exists rs, m. split; [done|]. apply run_numOps in Hrun.
      apply initmap_Some in Hinit as (_ & _ & _ & ->). simpl in Hrun. lia. }
  split; [by apply Hcount|]. split.
  - intros j Hj. destruct (Hcount (take j ops)) as (rs & m & Hrun & Hn).
    + rewrite length_take. lia.
    + exists rs, m. split; [done|]. rewrite Hn, length_take. lia.
  - intros m o res m' Hstep. by apply step_numOps in Hstep as [_ ?].
Qed.

Lemma numOps_counts_calls_witness :
  0 < 4 ≤ INT_MAX ∧
  initmap all_acquired 4
  = Some {| table := [[]; []; []; []]; numOps := 0; capacity := 4; size := 0 |} ∧
  7 ≤ INT_MAX ∧
  ∃ rs m,
    run [Put true 1 100; Put false 2 7; Put true 1 101; Get 1; Get 3; Del 1; Del 1]
        {| table := [[]; []; []; []]; numOps := 0; capacity := 4; size := 0 |}
    = Some (rs, m) ∧
    numOps m = 7.
Proof.
  assert (0 < 4 ≤ INT_MAX) as Hcap by done.
  assert (initmap all_acquired 4
          = Some {| table := [[]; []; []; []]; numOps := 0; capacity := 4; size := 0 |})
    as H by reflexivity.
  assert (7 ≤ INT_MAX) as Hlen by done.
  split; [exact Hcap|]. split; [exact H|]. split; [exact Hlen|].
  exact (proj1 (numOps_counts_calls all_acquired 4 _
                  [Put true 1 100; Put false 2 7; Put true 1 101;
                   Get 1; Get 3; Del 1; Del 1] Hcap H Hlen)).
Defined.

(** C4 as first stated fails for N = 2^31: on a fresh map of capacity 1,
    [INT_MAX] calls of [get] bring [numOps] to [INT_MAX], the largest
    [int]; the increment of the next call overflows, so that call has no
    defined result and no run of 2^31 calls ends with [numOps] at 2^31. *)
Lemma numOps_stops_at_INT_MAX :
  initmap all_acquired 1 = Some (unit_map 0 0 []) ∧
  run (replicate (Z.to_nat INT_MAX) (Get 0)) (unit_map 0 0 [])
  = Some (replicate (Z.to_nat INT_MAX) INT_MAX, unit_map INT_MAX 0 []) ∧
  get (unit_map INT_MAX 0 []) 0 = None ∧
  run (replicate (Z.to_nat (INT_MAX + 1)) (Get 0)) (unit_map 0 0 []) = None.
Proof.
  assert (0 ≤ INT_MAX ≤ INT_MAX) as Hmax by done.
  assert (INT_MAX < INT_MAX + 1) as Hnext by lia.
  split; [reflexivity|].
  split; [exact (unit_map_counts INT_MAX Hmax)|].
  split; [reflexivity|].
  exact (run_gets_past_INT_MAX (INT_MAX + 1) (unit_map 0 0 []) 0 eq_refl Hnext).
Qed.

(** ** The operations in terms of the scan *)

Lemma scan_Some m k o :
  scan m k = Some o ↔
  ∃ i chain, bucket_index k (capacity m) = Some i ∧ bucket m i = Some chain ∧
             chain_get k chain = o.
Proof.
  unfold scan. split.
  - intros H. destruct (bucket_index k (capacity m)) as [i|]; simpl in H; [|done].
    destruct (bucket m i) as [chain|] eqn:Hc; simpl in H; [|done].
    injection H as <-. by exists i, chain.
  - intros (i & chain & -> & Hc & <-). simpl. by rewrite Hc.
Qed.

Lemma get_scan m k r m' :
  get m k = Some (r, m') →
  ∃ o, scan m k = Some o ∧ r = default INT_MAX o ∧
       table m' = table m ∧ capacity m' = capacity m ∧ size m' = size m.
Proof.
  intros (i & chain & Hi & Hc & -> & _ & ->)%get_inv.
  exists (chain_get k chain). split; [|done]. apply scan_Some. eauto.
Qed.

Lemma scan_same m m' k :
  table m' = table m → capacity m' = capacity m → scan m' k = scan m k.
Proof. unfold scan, bucket. by intros -> ->. Qed.

Lemma bucket_insert m m' i chain chain' :
  bucket m i = Some chain →
  table m' = <[Z.to_nat i := chain']> (table m) →
  bucket m' i = Some chain'.
Proof.
  intros Hc Htab. unfold bucket. rewrite Htab.
  apply list_lookup_insert_eq. by eapply bucket_in_table.
Qed.

(** After a [put] that found the key or could allocate, the scan finds the
    value just written. *)
Lemma put_scan_after alloc m k v r m1 :
  put alloc m k v = Some (r, m1) →
  alloc = true ∨ keys_at_home m ∧ present m k →
  scan m1 k = Some (Some v).
Proof.
  intros
    (i & chain & Hi & Hc & _ & _ & Hcap &
     [(chain' & Hput & Htab & _)|[(Hput & _ & _ & _ & Htab & _)|(Hput & -> & _)]])%put_inv
    Hwhy; apply scan_Some.
  - apply chain_put_Some in Hput as (_ & Hg & _).
    exists i, chain'. rewrite Hcap. eauto using bucket_insert.
  - exists i, (mk_entry k v :: chain). rewrite Hcap.
    eauto using bucket_insert, chain_get_head.
  - destruct Hwhy as [[=]|[Hhome Hpres]].
    destruct (present_scan m k i chain Hhome Hpres Hi Hc) as [x Hx].
    apply chain_put_None in Hput. congruence.
Qed.

(** A [put] for a key the scan finds returns the value found, overwrites
    it, and leaves [size] alone. *)
Lemma put_scan_hit alloc m k old v r m' :
  scan m k = Some (Some old) →
  put alloc m k v = Some (r, m') →
  r = old ∧ size m' = size m ∧ scan m' k = Some (Some v).
Proof.
  intros (i & chain & Hi & Hc & Hg)%scan_Some
    (i' & chain0 & Hi' & Hc' & _ & _ & Hcap &
     [(chain' & Hput & Htab & Hsz)|[(Hput & _)|(Hput & _)]])%put_inv;
    same_bucket Hi Hi' Hc Hc'.
  - apply chain_put_Some in Hput as (Hg0 & Hg' & _).
    split; [congruence|]. split; [done|].
    apply scan_Some. exists i, chain'. rewrite Hcap. eauto using bucket_insert.
  - apply chain_put_None in Hput. congruence.
  - apply chain_put_None in Hput. congruence.
Qed.

(** A [del] for a key the scan finds returns the value found and takes one
    off [size]; when the chains hold no key twice the key is gone. *)
Lemma del_scan_hit m k v r m' :
  scan m k = Some (Some v) →
  del m k = Some (r, m') →
  r = v ∧ size m' = size m - 1 ∧
  (chains_distinct m → scan m' k = Some None).
Proof.
  intros (i & chain & Hi & Hc & Hg)%scan_Some
    (i' & chain0 & Hi' & Hc' & _ & _ & Hcap &
     [(chain' & Hdel & _ & Htab & Hsz)|(Hdel & _)])%del_inv;
    same_bucket Hi Hi' Hc Hc'.
  - apply chain_del_Some in Hdel as (Hg0 & _ & _ & Hgone).
    split; [congruence|]. split; [done|].
    intros Hdist. apply scan_Some. exists i, chain'. rewrite Hcap.
    repeat split; [done | by eapply bucket_insert |].
    apply chain_get_None, Hgone. by apply (Hdist (Z.to_nat i)).
  - apply chain_del_None in Hdel. congruence.
Qed.

Lemma get_scan_defined m k o :
  scan m k = Some o → numOps m < INT_MAX →
  get m k = Some (default INT_MAX o,
                  {| table := table m; numOps := numOps m + 1;
                     capacity := capacity m; size := size m |}).
Proof.
  intros (i & chain & Hi & Hc & <-)%scan_Some Hops.
  unfold get. rewrite Hi. simpl. rewrite Hc. simpl.
  unfold int_incr. rewrite decide_True by done.
  by destruct (chain_get k chain).
Qed.

Lemma put_hit_defined alloc m k old v :
  scan m k = Some (Some old) → numOps m < INT_MAX →
  is_Some (put alloc m k v).
Proof.
  intros (i & chain & Hi & Hc & Hg)%scan_Some Hops.
  unfold put. cbv zeta. rewrite Hi. simpl. rewrite Hc. simpl.
  destruct (chain_put k v chain) as [[old' chain']|] eqn:Hput.
  - unfold int_incr. rewrite decide_True by done. simpl. eauto.
  - apply chain_put_None in Hput. congruence.
Qed.

Lemma del_hit_defined m k v :
  scan m k = Some (Some v) → numOps m < INT_MAX → INT_MIN < size m →
  is_Some (del m k).
Proof.
  intros (i & chain & Hi & Hc & Hg)%scan_Some Hops Hsz.
  unfold del. cbv zeta. rewrite Hi. simpl. rewrite Hc. simpl.
  unfold int_incr, int_decr. rewrite !decide_True by done.
  destruct (chain_del k chain) as [[v' chain']|]; simpl; eauto.
Qed.



(** ** Round trip *)

(** C1, as amended.  On a map that satisfies the representation invariant, a
    [put] of [v] under [k] followed at once by [get] of [k] returns [v],
    provided [k] already has an entry or the allocation of the new entry
    succeeds; both calls complete when the two counters have room. *)
Theorem put_get_roundtrip alloc m k v :
  map_inv m → alloc = true ∨ present m k →
  (∀ r1 m1 r2 m2,
     put alloc m k v = Some (r1, m1) → get m1 k = Some (r2, m2) → r2 = v) ∧
  (numOps m + 2 ≤ INT_MAX → size m < INT_MAX →
     ∃ r1 m1 m2, put alloc m k v = Some (r1, m1) ∧ get m1 k = Some (v, m2)).
Proof.
  intros (Hw & Hhome & Hdist & Hcount) Hwhy.
  assert (∀ r1 m1, put alloc m k v = Some (r1, m1) → scan m1 k = Some (Some v))
    as Hafter.
  { intros r1 m1 Hput. eapply put_scan_after; [done|]. tauto. }
  split.
  - intros r1 m1 r2 m2 Hput (o & Ho & -> & _)%get_scan.
    rewrite (Hafter _ _ Hput) in Ho. by injection Ho as <-.
  - intros Hops Hsz.
    destruct (put_defined alloc m k v Hw) as [[r1 m1] Hput]; [lia | done |].
    exists r1, m1. eexists. split; [done|].
    apply (get_scan_defined m1 k (Some v)); [by eapply Hafter|].
    apply (step_numOps m (Put alloc k v)) in Hput as [_ ->]. lia.
Qed.

Lemma put_get_roundtrip_witness :
  map_inv scenario_map ∧ (true = true ∨ present scenario_map 9) ∧
  ∀ r1 m1 r2 m2,
    put true scenario_map 9 42 = Some (r1, m1) → get m1 9 = Some (r2, m2) →
    r2 = 42.
Proof.
  split; [exact scenario_map_inv|]. split; [by left|].
  exact (proj1 (put_get_roundtrip true scenario_map 9 42
                  scenario_map_inv (or_introl eq_refl))).
Defined.

(** C1 as first stated fails: on a fresh map of capacity 1 a [put] of 5
    under key 0 whose allocation fails inserts nothing, and the [get] that
    follows returns the sentinel, not 5. *)
Lemma failed_alloc_breaks_roundtrip :
  initmap all_acquired 1 = Some (unit_map 0 0 []) ∧
  put false (unit_map 0 0 []) 0 5 = Some (INT_MAX, unit_map 1 0 []) ∧
  get (unit_map 1 0 []) 0 = Some (INT_MAX, unit_map 2 0 []) ∧
  INT_MAX ≠ 5.
Proof. repeat split; done. Qed.

(** ** Overwrite *)

(** C5, as amended.  On a map that satisfies the representation invariant,
    when [k] already has an entry or the allocation in the first call
    succeeds, [put k v1] followed by [put k v2] returns [v1] from the
    second call, leaves [size] as the first call left it, and a following
    [get k] returns [v2]; the three calls complete when the two counters
    have room. *)
Theorem put_overwrite alloc1 alloc2 m k v1 v2 :
  map_inv m → alloc1 = true ∨ present m k →
  (∀ r1 m1 r2 m2 r3 m3,
     put alloc1 m k v1 = Some (r1, m1) → put alloc2 m1 k v2 = Some (r2, m2) →
     get m2 k = Some (r3, m3) →
     r2 = v1 ∧ r3 = v2 ∧ size m2 = size m1) ∧
  (numOps m + 3 ≤ INT_MAX → size m < INT_MAX →
     ∃ r1 m1 m2 m3,
       put alloc1 m k v1 = Some (r1, m1) ∧ put alloc2 m1 k v2 = Some (v1, m2) ∧
       get m2 k = Some (v2, m3)).
Proof.
  intros (Hw & Hhome & Hdist & Hcount) Hwhy.
  assert (∀ r1 m1, put alloc1 m k v1 = Some (r1, m1) → scan m1 k = Some (Some v1))
    as Hafter.
  { intros r1 m1 Hput. eapply put_scan_after; [done|]. tauto. }
  split.
  - intros r1 m1 r2 m2 r3 m3 Hput1 Hput2 (o & Ho & -> & _)%get_scan.
    destruct (put_scan_hit _ _ _ _ _ _ _ (Hafter _ _ Hput1) Hput2)
      as (-> & Hsz & Hscan).
    rewrite Hscan in Ho. by injection Ho as <-.
  - intros Hops Hsz.
    destruct (put_defined alloc1 m k v1 Hw) as [[r1 m1] Hput1]; [lia | done |].
    pose proof (Hafter _ _ Hput1) as Hscan1.
    pose proof (step_numOps m (Put alloc1 k v1) _ _ Hput1) as [_ Hn1].
    destruct (put_hit_defined alloc2 m1 k v1 v2 Hscan1) as [[r2 m2] Hput2]; [lia|].
    destruct (put_scan_hit _ _ _ _ _ _ _ Hscan1 Hput2) as (-> & _ & Hscan2).
    pose proof (step_numOps m1 (Put alloc2 k v2) _ _ Hput2) as [_ Hn2].
    exists r1, m1, m2. eexists. split; [done|]. split; [done|].
    apply (get_scan_defined m2 k (Some v2)); [done | lia].
Qed.

Lemma put_overwrite_witness :
  map_inv scenario_map ∧ (false = true ∨ present scenario_map 5) ∧
  ∀ r1 m1 r2 m2 r3 m3,
    put false scenario_map 5 7 = Some (r1, m1) →
    put false m1 5 8 = Some (r2, m2) → get m2 5 = Some (r3, m3) →
    r2 = 7 ∧ r3 = 8 ∧ size m2 = size m1.
Proof.
  assert (present scenario_map 5) as H
    by present_by_computation.
  split; [exact scenario_map_inv|]. split; [by right|].
  exact (proj1 (put_overwrite false false scenario_map 5 7 8
                  scenario_map_inv (or_intror H))).
Defined.

(** C5 as first stated fails: on a fresh map of capacity 1, when the
    allocation of the first [put] fails the second [put] finds no entry; it
    returns the sentinel, not 5, and [size] goes from 0 to 1. *)
Lemma failed_alloc_breaks_overwrite :
  initmap all_acquired 1 = Some (unit_map 0 0 []) ∧
  put false (unit_map 0 0 []) 0 5 = Some (INT_MAX, unit_map 1 0 []) ∧
  put true (unit_map 1 0 []) 0 6 = Some (INT_MAX, unit_map 2 1 [mk_entry 0 6]) ∧
  INT_MAX ≠ 5 ∧
  size (unit_map 2 1 [mk_entry 0 6]) ≠ size (unit_map 1 0 []).
Proof. repeat split; done. Qed.

(** ** Delete *)

(** C6, as amended.  On a map that satisfies the representation invariant,
    when [k] already has an entry or the allocation in [put] succeeds,
    [put k v] followed by [del k] returns [v] from [del], [size] is one
    less after the [del] than before it, and a following [get k] returns
    the NOT_FOUND sentinel; the three calls complete when the two counters
    have room. *)
Theorem put_del_removes alloc m k v :
  map_inv m → alloc = true ∨ present m k →
  (∀ r1 m1 r2 m2 r3 m3,
     put alloc m k v = Some (r1, m1) → del m1 k = Some (r2, m2) →
     get m2 k = Some (r3, m3) →
     r2 = v ∧ r3 = INT_MAX ∧ size m2 = size m1 - 1) ∧
  (numOps m + 3 ≤ INT_MAX → size m < INT_MAX →
     ∃ r1 m1 m2 m3,
       put alloc m k v = Some (r1, m1) ∧ del m1 k = Some (v, m2) ∧
       get m2 k = Some (INT_MAX, m3)).
Proof.
  intros (Hw & Hhome & Hdist & Hcount) Hwhy.
  assert (∀ r1 m1, put alloc m k v = Some (r1, m1) →
            scan m1 k = Some (Some v) ∧ chains_distinct m1) as Hafter.
  { intros r1 m1 Hput. split.
    - eapply put_scan_after; [done|]. tauto.
    - by apply (step_chains_distinct m (Put alloc k v) r1 m1). }
  split.
  - intros r1 m1 r2 m2 r3 m3 Hput Hdel (o & Ho & -> & _)%get_scan.
    destruct (Hafter _ _ Hput) as [Hscan1 Hdist1].
    destruct (del_scan_hit _ _ _ _ _ Hscan1 Hdel) as (-> & Hsz & Hgone).
    rewrite (Hgone Hdist1) in Ho. by injection Ho as <-.
  - intros Hops Hhi.
    assert (INT_MIN < size m) as Hlo
      by (rewrite Hcount; unfold entry_count, INT_MIN; lia).
    destruct (put_defined alloc m k v Hw) as [[r1 m1] Hput]; [lia | done |].
    destruct (Hafter _ _ Hput) as [Hscan1 Hdist1].
    pose proof (step_numOps m (Put alloc k v) _ _ Hput) as [_ Hn1].
    assert (size m ≤ size m1) as Hs1.
    { apply put_inv in Hput
        as (_ & _ & _ & _ & _ & _ & _ &
            [(_ & _ & _ & ->)|[(_ & _ & _ & _ & _ & ->)|(_ & _ & _ & _ & ->)]]);
        lia. }
    destruct (del_hit_defined m1 k v Hscan1) as [[r2 m2] Hdel]; [lia | lia |].
    destruct (del_scan_hit _ _ _ _ _ Hscan1 Hdel) as (-> & _ & Hgone).
    pose proof (step_numOps m1 (Del k) _ _ Hdel) as [_ Hn2].
    exists r1, m1, m2. eexists. split; [done|]. split; [done|].
    apply (get_scan_defined m2 k None); [by apply Hgone | lia].
Qed.

Lemma put_del_removes_witness :
  map_inv scenario_map ∧ (true = true ∨ present scenario_map 9) ∧
  ∀ r1 m1 r2 m2 r3 m3,
    put true scenario_map 9 42 = Some (r1, m1) → del m1 9 = Some (r2, m2) →
    get m2 9 = Some (r3, m3) →
    r2 = 42 ∧ r3 = INT_MAX ∧ size m2 = size m1 - 1.
Proof.
  split; [exact scenario_map_inv|]. split; [by left|].
  exact (proj1 (put_del_removes true scenario_map 9 42
                  scenario_map_inv (or_introl eq_refl))).
Defined.

(** C6 as first stated fails: on a fresh map of capacity 1, when the
    allocation of the [put] fails the [del] finds no entry; it returns the
    sentinel, not 5, and [size] stays at 0. *)
Lemma failed_alloc_breaks_delete :
  initmap all_acquired 1 = Some (unit_map 0 0 []) ∧
  put false (unit_map 0 0 []) 0 5 = Some (INT_MAX, unit_map 1 0 []) ∧
  del (unit_map 1 0 []) 0 = Some (INT_MAX, unit_map 2 0 []) ∧
  INT_MAX ≠ 5 ∧
  size (unit_map 2 0 []) ≠ size (unit_map 1 0 []) - 1.
Proof. repeat split; done. Qed.

(** ** A stored [INT_MAX] *)




(** ** Capacity is not validated *)

(** C2, as amended.  [initmap] does not examine its capacity argument: for
    every capacity it reports failure exactly when the allocation of the
    map, the allocation of the table or the initialisation of the lock
    fails.  When they succeed the map has the capacity asked for, [size]
    0 and [numOps] 0; for a non-positive capacity its table has no bucket,
    and every [get], [put] and [del] on it is undefined. *)
Theorem initmap_no_capacity_check r cap :
  (initmap r cap = None ↔
     malloc_map r = false ∨ malloc_table r = false ∨ mutex_init r = false) ∧
  (∀ m, initmap r cap = Some m →
     capacity m = cap ∧ length (table m) = Z.to_nat cap ∧
     size m = 0 ∧ numOps m = 0 ∧
     (cap ≤ 0 →
        table m = [] ∧
        ∀ alloc k v,
          get m k = None ∧ put alloc m k v = None ∧ del m k = None)).
Proof.
  split.
  - unfold initmap. destruct r as [[] [] []]; simpl; split; intros H;
      try done; try tauto; destruct H as [H|[H|H]]; done.
  - intros m (_ & _ & _ & ->)%initmap_Some. simpl.
    rewrite length_replicate. repeat (split; [done|]).
    intros Hcap. replace (Z.to_nat cap) with 0%nat by lia. split; [done|].
    intros alloc k v. unfold get, put, del, bucket. cbv zeta. simpl.
    by destruct (bucket_index k cap).
Qed.

(** C2 as first stated fails: with capacity 0 and every acquisition
    succeeding, [initmap] does not report failure; it returns a map whose
    table has length zero. *)
Lemma initmap_accepts_zero_capacity :
  initmap all_acquired 0
  = Some {| table := []; numOps := 0; capacity := 0; size := 0 |} ∧
  initmap all_acquired 0 ≠ None.
Proof. split; done. Qed.

(** ** Other keys are left alone *)

Lemma chain_put_other k k' v chain old chain' :
  k' ≠ k → chain_put k v chain = Some (old, chain') →
  chain_get k' chain' = chain_get k' chain.
Proof.
  intros Hne. revert old chain'.
  induction chain as [|e next IH]; intros old chain'; simpl; [done|].
  destruct (decide (key e = k)) as [Heq|Hk].
  - intros [= <- <-]. simpl. by rewrite !decide_False by congruence.
  - destruct (chain_put k v next) as [[old' next']|]; simpl; [|done].
    intros [= <- <-]. simpl. by rewrite (IH _ _ eq_refl).
Qed.

Lemma chain_del_other k k' chain v chain' :
  k' ≠ k → chain_del k chain = Some (v, chain') →
  chain_get k' chain' = chain_get k' chain.
Proof.
  intros Hne. revert v chain'.
  induction chain as [|e next IH]; intros v chain'; simpl; [done|].
  destruct (decide (key e = k)) as [Heq|Hk].
  - intros [= <- <-]. by rewrite decide_False by congruence.
  - destruct (chain_del k next) as [[v' next']|]; simpl; [|done].
    intros [= <- <-]. simpl. by rewrite (IH _ _ eq_refl).
Qed.

(** Replacing the chain of one bucket by a chain in which [k'] is found as
    before leaves the scan of [k'] as it was. *)
Lemma scan_update_other m m' k i chain chain' k' :
  capacity m' = capacity m →
  bucket_index k (capacity m) = Some i → bucket m i = Some chain →
  table m' = <[Z.to_nat i := chain']> (table m) →
  chain_get k' chain' = chain_get k' chain →
  scan m' k' = scan m k'.
Proof.
  intros Hcap Hi Hc Htab Hsame. unfold scan. rewrite Hcap.
  destruct (bucket_index k' (capacity m)) as [j|] eqn:Hj; simpl; [|done].
  destruct (decide (j = i)) as [->|Hji].
  - rewrite (bucket_insert m m' i chain chain' Hc Htab), Hc. simpl.
    by rewrite Hsame.
  - unfold bucket. rewrite Htab, list_lookup_insert_ne; [done|].
    apply bucket_index_nonneg in Hi, Hj. lia.
Qed.

Lemma step_scan_other m o r m' k' :
  step m o = Some (r, m') → k' ≠ op_key o → scan m' k' = scan m k'.
Proof.
  destruct o as [k|alloc k v|k]; simpl; intros Hstep Hne.
  - apply get_scan in Hstep as (_ & _ & _ & Htab & Hcap & _).
    by apply scan_same.
  - apply put_inv in Hstep
      as (i & chain & Hi & Hc & _ & _ & Hcap &
          [(chain' & Hput & Htab & _)
          |[(_ & _ & _ & _ & Htab & _)|(_ & _ & _ & Htab & _)]]).
    + eapply scan_update_other; [done..|]. by eapply chain_put_other.
    + eapply scan_update_other; [done..|]. simpl. by rewrite decide_False.
    + by apply scan_same.
  - apply del_inv in Hstep
      as (i & chain & Hi & Hc & _ & _ & Hcap &
          [(chain' & Hdel & _ & Htab & _)|(_ & _ & Htab & _)]).
    + eapply scan_update_other; [done..|]. by eapply chain_del_other.
    + by apply scan_same.
Qed.

(** X1. A completed [get], [put] or [del] for one key changes nothing for
    any other key, colliding keys included: the scan of the other key finds
    what it found before, so a [get] of the other key returns the same
    value after the call as before it. *)
Theorem other_keys_undisturbed m o r m' k' :
  step m o = Some (r, m') → k' ≠ op_key o →
  scan m' k' = scan m k' ∧
  (∀ r1 m1 r2 m2,
     get m k' = Some (r1, m1) → get m' k' = Some (r2, m2) → r2 = r1).
Proof.
  intros Hstep Hne. pose proof (step_scan_other m o r m' k' Hstep Hne) as Hscan.
  split; [done|].
  intros r1 m1 r2 m2 (o1 & Ho1 & -> & _)%get_scan (o2 & Ho2 & -> & _)%get_scan.
  rewrite Hscan, Ho1 in Ho2. by injection Ho2 as <-.
Qed.

Lemma other_keys_undisturbed_witness :
  step scenario_map (Del 5)
  = Some (200, {| table := [[]; [mk_entry 1 100]; []; []];
                  numOps := 3; capacity := 4; size := 1 |}) ∧
  1 ≠ op_key (Del 5) ∧
  scan {| table := [[]; [mk_entry 1 100]; []; []];
          numOps := 3; capacity := 4; size := 1 |} 1
  = scan scenario_map 1.
Proof.
  assert (step scenario_map (Del 5)
          = Some (200, {| table := [[]; [mk_entry 1 100]; []; []];
                          numOps := 3; capacity := 4; size := 1 |}))
    as H by reflexivity.
  assert (1 ≠ op_key (Del 5)) as Hne by (simpl; lia).
  split; [exact H|]. split; [exact Hne|].
  exact (proj1 (other_keys_undisturbed scenario_map (Del 5) 200 _ 1 H Hne)).
Defined.

(** ** Delete removes, whatever came before *)



(** ** Results and size in terms of what the table holds *)

Lemma put_scan_result alloc m k v r m' :
  put alloc m k v = Some (r, m') →
  ∃ o, scan m k = Some o ∧ r = default INT_MAX o ∧
       size m' = match o with
                 | Some _ => size m
                 | None => if alloc then size m + 1 else size m
                 end.
Proof.
  intros
    (i & chain & Hi & Hc & _ & _ & _ &
     [(chain' & Hput & _ & Hsz)
     |[(Hput & -> & -> & _ & _ & Hsz)|(Hput & -> & -> & _ & Hsz)]])%put_inv.
  - apply chain_put_Some in Hput as (Hg & _).
    exists (Some r). split; [apply scan_Some; eauto|done].
  - apply chain_put_None in Hput.
    exists None. split; [apply scan_Some; eauto|done].
  - apply chain_put_None in Hput.
    exists None. split; [apply scan_Some; eauto|done].
Qed.

Lemma del_scan_result m k r m' :
  del m k = Some (r, m') →
  ∃ o, scan m k = Some o ∧ r = default INT_MAX o ∧
       size m' = match o with Some _ => size m - 1 | None => size m end.
Proof.
  intros
    (i & chain & Hi & Hc & _ & _ & _ &
     [(chain' & Hdel & _ & _ & Hsz)|(Hdel & -> & _ & Hsz)])%del_inv.
  - apply chain_del_Some in Hdel as (Hg & _).
    exists (Some r). split; [apply scan_Some; eauto|done].
  - apply chain_del_None in Hdel.
    exists None. split; [apply scan_Some; eauto|done].
Qed.

(** When every entry is in its home bucket, a key is present exactly when
    its scan finds a value. *)
Lemma present_iff_scan m k o :
  keys_at_home m → scan m k = Some o → present m k ↔ is_Some o.
Proof.
  intros Hhome Hscan. pose proof Hscan as (i & chain & Hi & Hc & <-)%scan_Some.
  split.
  - intros Hpres. by eapply present_scan.
  - intros [x Hx]. destruct (decide (present m k)) as [|Habs]; [done|].
    rewrite (absent_scan m k i chain Habs Hc) in Hx. done.
Qed.

(** X3. [put] and [del] return exactly what a [get] of the same key issued
    on the same map returns: the value bound to the key, or the sentinel. *)
Theorem put_del_return_what_get_returns m k rg mg :
  get m k = Some (rg, mg) →
  (∀ alloc v rp mp, put alloc m k v = Some (rp, mp) → rp = rg) ∧
  (∀ rd md, del m k = Some (rd, md) → rd = rg).
Proof.
  intros (o & Ho & -> & _)%get_scan. split.
  - intros alloc v rp mp (o' & Ho' & -> & _)%put_scan_result.
    rewrite Ho in Ho'. by injection Ho' as <-.
  - intros rd md (o' & Ho' & -> & _)%del_scan_result.
    rewrite Ho in Ho'. by injection Ho' as <-.
Qed.

Lemma put_del_return_what_get_returns_witness :
  get scenario_map 5
  = Some (200, {| table := table scenario_map; numOps := 3;
                  capacity := 4; size := 2 |}) ∧
  ∀ rd md, del scenario_map 5 = Some (rd, md) → rd = 200.
Proof.
  assert (get scenario_map 5
          = Some (200, {| table := table scenario_map; numOps := 3;
                          capacity := 4; size := 2 |})) as H by reflexivity.
  split; [exact H|].
  exact (proj2 (put_del_return_what_get_returns scenario_map 5 200 _ H)).
Defined.

(** X4. On a map that satisfies the representation invariant, a completed
    [put] adds one to [size] exactly when the key was absent and the
    allocation succeeded, and a completed [del] takes one off [size]
    exactly when the key was present; in every other case [size] is
    unchanged. *)
Theorem size_changes_only_on_insert_and_removal m k :
  map_inv m →
  (∀ alloc v r m', put alloc m k v = Some (r, m') →
     size m' = size m
               + (if bool_decide (present m k) then 0
                  else if alloc then 1 else 0)) ∧
  (∀ r m', del m k = Some (r, m') →
     size m' = size m - (if bool_decide (present m k) then 1 else 0)).
Proof.
  intros (_ & Hhome & _ & _). split.
  - intros alloc v r m' (o & Ho & _ & ->)%put_scan_result.
    pose proof (present_iff_scan m k o Hhome Ho) as Hiff.
    destruct o as [x|].
    + rewrite bool_decide_eq_true_2 by (apply Hiff; eauto). lia.
    + rewrite bool_decide_eq_false_2; [destruct alloc; lia|].
      intros [x Hx]%Hiff. done.
  - intros r m' (o & Ho & _ & ->)%del_scan_result.
    pose proof (present_iff_scan m k o Hhome Ho) as Hiff.
    destruct o as [x|].
    + rewrite bool_decide_eq_true_2 by (apply Hiff; eauto). lia.
    + rewrite bool_decide_eq_false_2; [lia|]. intros [x Hx]%Hiff. done.
Qed.

Lemma size_changes_only_on_insert_and_removal_witness :
  map_inv scenario_map ∧
  ∀ alloc v r m', put alloc scenario_map 5 v = Some (r, m') →
    size m' = size scenario_map + 0.
Proof.
  split; [exact scenario_map_inv|].
  exact (proj1 (size_changes_only_on_insert_and_removal scenario_map 5
                  scenario_map_inv)).
Defined.

(** ** Bookkeeping over whole runs *)

Lemma run_shape ops m rs m' :
  run ops m = Some (rs, m') →
  capacity m' = capacity m ∧ length (table m') = length (table m) ∧
  size m' ≤ size m + Z.of_nat (length ops) ∧ length rs = length ops.
Proof.
  revert m rs m'. induction ops as [|o rest IH]; intros m rs m'; simpl.
  - intros [= <- <-]. simpl. repeat split; lia.
  - destruct (step m o) as [[r m1]|] eqn:Hstep; simpl; [|done].
    destruct (run rest m1) as [[rs' m2]|] eqn:Hrun; simpl; [|done].
    intros [= <- <-]. apply step_shape in Hstep as (Hc & Hl & Hs).
    destruct (IH _ _ _ Hrun) as (Hc' & Hl' & Hs' & Hr').
    simpl. repeat split; [congruence | congruence | lia | lia].
Qed.

Lemma run_size_counts ops m rs m' :
  run ops m = Some (rs, m') → size_counts m → size_counts m'.
Proof.
  revert m rs m'. induction ops as [|o rest IH]; intros m rs m'; simpl.
  - by intros [= _ <-].
  - destruct (step m o) as [[r m1]|] eqn:Hstep; simpl; [|done].
    destruct (run rest m1) as [[rs' m2]|] eqn:Hrun; simpl; [|done].
    intros [= _ <-] Hsz. apply (IH _ _ _ Hrun). by eapply step_size_counts.
Qed.

(** X5. For a map made by [initmap], after any completed sequence of calls
    [size] is exactly the number of entries that hang off the table; it is
    never negative and never exceeds the number of calls made. *)
Theorem size_is_entry_count r cap m0 ops rs m :
  initmap r cap = Some m0 → run ops m0 = Some (rs, m) →
  size m = entry_count m ∧ 0 ≤ size m ≤ Z.of_nat (length ops).
Proof.
  intros Hinit Hrun.
  pose proof (run_size_counts _ _ _ _ Hrun (initmap_size_counts _ _ _ Hinit))
    as Hsz.
  apply run_shape in Hrun as (_ & _ & Hle & _).
  apply initmap_Some in Hinit as (_ & _ & _ & ->). simpl in Hle.
  unfold size_counts in Hsz. split; [done|].
  unfold entry_count in Hsz. lia.
Qed.

Lemma size_is_entry_count_witness :
  initmap all_acquired 4
  = Some {| table := [[]; []; []; []]; numOps := 0; capacity := 4; size := 0 |} ∧
  run [Put true 1 100; Put true 5 200]
      {| table := [[]; []; []; []]; numOps := 0; capacity := 4; size := 0 |}
  = Some ([INT_MAX; INT_MAX], scenario_map) ∧
  size scenario_map = entry_count scenario_map.
Proof.
  assert (initmap all_acquired 4
          = Some {| table := [[]; []; []; []]; numOps := 0;
                    capacity := 4; size := 0 |}) as H by reflexivity.
  assert (run [Put true 1 100; Put true 5 200]
              {| table := [[]; []; []; []]; numOps := 0; capacity := 4; size := 0 |}
          = Some ([INT_MAX; INT_MAX], scenario_map)) as Hrun by reflexivity.
  split; [exact H|]. split; [exact Hrun|].
  exact (proj1 (size_is_entry_count all_acquired 4 _ _ _ _ H Hrun)).
Defined.

(** X6. No call resizes the map: after any completed sequence of [get],
    [put] and [del] calls the capacity and the number of buckets are what
    they were, however many entries were inserted, and every call has
    produced one result. *)
Theorem capacity_never_changes ops m rs m' :
  run ops m = Some (rs, m') →
  capacity m' = capacity m ∧ length (table m') = length (table m) ∧
  length rs = length ops.
Proof.
  intros (Hc & Hl & _ & Hr)%run_shape. done.
Qed.

Lemma capacity_never_changes_witness :
  run [Put true 1 1; Put true 2 2; Put true 3 3] (unit_map 0 0 [])
  = Some ([INT_MAX; INT_MAX; INT_MAX],
          unit_map 3 3 [mk_entry 3 3; mk_entry 2 2; mk_entry 1 1]) ∧
  capacity (unit_map 3 3 [mk_entry 3 3; mk_entry 2 2; mk_entry 1 1])
  = capacity (unit_map 0 0 []).
Proof.
  assert (run [Put true 1 1; Put true 2 2; Put true 3 3] (unit_map 0 0 [])
          = Some ([INT_MAX; INT_MAX; INT_MAX],
                  unit_map 3 3 [mk_entry 3 3; mk_entry 2 2; mk_entry 1 1]))
    as H by reflexivity.
  split; [exact H|].
  exact (proj1 (capacity_never_changes _ _ _ _ H)).
Defined.

(** ** A fresh map, and the value an entry holds *)

(** X7. A map fresh from [initmap] is empty: no key has an entry, the entry
    count is zero, and with a positive [int] capacity a [get] of any key
    completes and returns the sentinel. *)
Theorem fresh_map_is_empty r cap m :
  initmap r cap = Some m →
  (∀ k, ¬ present m k) ∧ entry_count m = 0 ∧
  (0 < cap ≤ INT_MAX →
     ∀ k, get m k = Some (INT_MAX, {| table := table m; numOps := 1;
                                      capacity := cap; size := 0 |})).
Proof.
  intros Hinit.
  assert (∀ k, ¬ present m k) as Habs.
  { intros k (i & chain & Hi & Hk)%present_lookup.
    apply initmap_Some in Hinit as (_ & _ & _ & ->). simpl in Hi.
    apply lookup_replicate in Hi as [-> _]. by apply elem_of_nil in Hk. }
  split; [done|]. split.
  - pose proof (initmap_size_counts _ _ _ Hinit) as Hsz.
    apply initmap_Some in Hinit as (_ & _ & _ & ->). by rewrite <- Hsz.
  - intros Hcap k.
    pose proof (initmap_well_shaped _ _ _ Hcap Hinit) as Hw.
    destruct (bucket_well_shaped m k Hw) as (i & chain & Hi & Hc).
    assert (scan m k = Some None) as Hscan.
    { apply scan_Some. exists i, chain. split; [done|]. split; [done|].
      by apply (absent_scan m k i). }
    apply initmap_Some in Hinit as (_ & _ & _ & ->).
    by rewrite (get_scan_defined _ k None Hscan).
Qed.

Lemma fresh_map_is_empty_witness :
  initmap all_acquired 4
  = Some {| table := [[]; []; []; []]; numOps := 0; capacity := 4; size := 0 |} ∧
  ∀ k, ¬ present {| table := [[]; []; []; []]; numOps := 0;
                    capacity := 4; size := 0 |} k.
Proof.
  assert (initmap all_acquired 4
          = Some {| table := [[]; []; []; []]; numOps := 0;
                    capacity := 4; size := 0 |}) as H by reflexivity.
  split; [exact H|].
  exact (proj1 (fresh_map_is_empty all_acquired 4 _ H)).
Defined.

Lemma chain_get_elem k v chain :
  NoDup (keys chain) → mk_entry k v ∈ chain → chain_get k chain = Some v.
Proof.
  induction chain as [|e next IH]; simpl.
  - intros _ H. by apply elem_of_nil in H.
  - unfold keys. simpl. intros [Hfresh Hnd]%list.NoDup_cons [<-|Hin]%elem_of_cons.
    + simpl. by rewrite decide_True.
    + destruct (decide (key e = k)) as [Heq|Hne]; [|by apply IH].
      exfalso. apply Hfresh. rewrite Heq.
      apply (list_elem_of_fmap_2 key) in Hin. exact Hin.
Qed.

(** X8. On a map that satisfies the representation invariant, if some chain
    of the table holds an entry with key [k] and value [v], then every
    completed [get k] returns [v], and [get k] completes while the
    operation counter has room: no entry is hidden by another one or by
    sitting in a bucket that [get] does not search. *)
Theorem get_returns_stored_value m i chain k v :
  map_inv m → table m !! i = Some chain → mk_entry k v ∈ chain →
  (∀ r m', get m k = Some (r, m') → r = v) ∧
  (numOps m < INT_MAX → is_Some (get m k)).
Proof.
  intros (Hw & Hhome & Hdist & _) Hi Hin.
  assert (scan m k = Some (Some v)) as Hscan.
  { apply scan_Some. exists (Z.of_nat i), chain. split; [|split].
    - apply (Hhome i chain k Hi). apply (list_elem_of_fmap_2 key) in Hin. exact Hin.
    - unfold bucket. by rewrite Nat2Z.id.
    - apply chain_get_elem; [by eapply Hdist | done]. }
  split.
  - intros r m' (o & Ho & -> & _)%get_scan. rewrite Hscan in Ho.
    by injection Ho as <-.
  - intros Hops. by apply get_defined.
Qed.

Lemma get_returns_stored_value_witness :
  map_inv scenario_map ∧
  table scenario_map !! 1%nat = Some [mk_entry 5 200; mk_entry 1 100] ∧
  mk_entry 1 100 ∈ [mk_entry 5 200; mk_entry 1 100] ∧
  ∀ r m', get scenario_map 1 = Some (r, m') → r = 100.
Proof.
  assert (table scenario_map !! 1%nat = Some [mk_entry 5 200; mk_entry 1 100])
    as Hi by reflexivity.
  assert (mk_entry 1 100 ∈ [mk_entry 5 200; mk_entry 1 100]) as Hin
    by (apply elem_of_cons; right; apply elem_of_cons; left; reflexivity).
  split; [exact scenario_map_inv|]. split; [exact Hi|]. split; [exact Hin|].
  exact (proj1 (get_returns_stored_value scenario_map 1 _ 1 100
                  scenario_map_inv Hi Hin)).
Defined.

(** ** The hash map behaves as a finite map *)

Lemma put_miss_no_alloc_same m k v r m' :
  scan m k = Some None → put false m k v = Some (r, m') →
  table m' = table m ∧ capacity m' = capacity m.
Proof.
  intros (i & chain & Hi & Hc & Hg)%scan_Some
    (i' & chain0 & Hi' & Hc' & _ & _ & Hcap &
     [(chain' & Hput & _)|[(_ & [=] & _)|(_ & _ & _ & Htab & _)]])%put_inv;
    same_bucket Hi Hi' Hc Hc'; [|done].
  apply chain_put_Some in Hput as (Hg' & _). congruence.
Qed.

Lemma del_miss_same m k r m' :
  scan m k = Some None → del m k = Some (r, m') →
  table m' = table m ∧ capacity m' = capacity m.
Proof.
  intros (i & chain & Hi & Hc & Hg)%scan_Some
    (i' & chain0 & Hi' & Hc' & _ & _ & Hcap &
     [(chain' & Hdel & _)|(_ & _ & Htab & _)])%del_inv;
    same_bucket Hi Hi' Hc Hc'; [|done].
  apply chain_del_Some in Hdel as (Hg' & _). congruence.
Qed.

Lemma represents_fresh r cap m :
  0 < cap ≤ INT_MAX → initmap r cap = Some m → represents m ∅.
Proof.
  intros Hcap Hinit. split; [by eapply initmap_chains_distinct|]. split.
  - intros k. rewrite lookup_empty.
    pose proof (initmap_well_shaped _ _ _ Hcap Hinit) as Hw.
    destruct (bucket_well_shaped m k Hw) as (i & chain & Hi & Hc).
    apply scan_Some. exists i, chain. split; [done|]. split; [done|].
    apply initmap_Some in Hinit as (_ & _ & _ & ->).
    unfold bucket in Hc. simpl in Hc. by apply lookup_replicate in Hc as [-> _].
  - apply initmap_Some in Hinit as (_ & _ & _ & ->). simpl.
    by rewrite map_size_empty.
Qed.

Lemma map_size_delete_Some_Z (M : gmap Z Z) k x :
  M !! k = Some x → Z.of_nat (base.size (delete k M)) = Z.of_nat (base.size M) - 1.
Proof.
  intros Hk.
  assert (base.size M = S (base.size (delete k M))) as ->; [|lia].
  rewrite <- (insert_delete_id M k x Hk) at 1.
  apply map_size_insert_None, lookup_delete_eq.
Qed.

(** One completed call on the hash map and the same call on the finite map
    it represents give the same result, and the hash map then represents
    the new finite map. *)
Lemma step_represents m M o r m' :
  represents m M → step m o = Some (r, m') →
  r = (ideal_step M o).1 ∧ represents m' (ideal_step M o).2.
Proof.
  intros (Hdist & Hscan & Hsize) Hstep.
  pose proof (step_chains_distinct m o r m' Hstep Hdist) as Hdist'.
  pose proof (step_scan_other m o r m' ) as Hframe.
  destruct o as [k|alloc k v|k]; simpl in *.
  - apply get_scan in Hstep as (o & Ho & -> & Htab & Hcap & Hsz).
    rewrite Hscan in Ho. injection Ho as <-. split; [done|].
    split; [done|]. split; [|congruence].
    intros k'. by rewrite (scan_same m m' k' Htab Hcap).
  - pose proof Hstep as (o & Ho & -> & Hsz)%put_scan_result.
    rewrite Hscan in Ho. injection Ho as <-. split; [done|].
    split; [done|].
    destruct (M !! k) as [old|] eqn:HM; [|destruct alloc].
    + split.
      * intros k'. destruct (decide (k' = k)) as [->|Hne].
        -- rewrite lookup_insert_eq. specialize (Hscan k). rewrite HM in Hscan.
           by destruct (put_scan_hit _ _ _ _ _ _ _ Hscan Hstep) as (_ & _ & ?).
        -- rewrite lookup_insert_ne by done. by rewrite Hframe.
      * rewrite map_size_insert_Some by (by rewrite HM). lia.
    + split.
      * intros k'. destruct (decide (k' = k)) as [->|Hne].
        -- rewrite lookup_insert_eq.
           by apply (put_scan_after true m k v _ m' Hstep); left.
        -- rewrite lookup_insert_ne by done. by rewrite Hframe.
      * rewrite map_size_insert_None by done. lia.
    + specialize (Hscan k) as Hk. rewrite HM in Hk.
      destruct (put_miss_no_alloc_same m k v _ m' Hk Hstep) as [Htab Hcap].
      split; [|lia]. intros k'. by rewrite (scan_same m m' k' Htab Hcap).
  - pose proof Hstep as (o & Ho & -> & Hsz)%del_scan_result.
    rewrite Hscan in Ho. injection Ho as <-. split; [done|].
    split; [done|].
    destruct (M !! k) as [old|] eqn:HM.
    + split.
      * intros k'. destruct (decide (k' = k)) as [->|Hne].
        -- rewrite lookup_delete_eq. specialize (Hscan k). rewrite HM in Hscan.
           destruct (del_scan_hit _ _ _ _ _ Hscan Hstep) as (_ & _ & Hgone).
           by apply Hgone.
        -- rewrite lookup_delete_ne by done. by rewrite Hframe.
      * rewrite (map_size_delete_Some_Z M k old HM). lia.
    + specialize (Hscan k) as Hk. rewrite HM in Hk.
      destruct (del_miss_same m k _ m' Hk Hstep) as [Htab Hcap].
      split.
      * intros k'. rewrite (scan_same m m' k' Htab Hcap), Hscan.
        destruct (decide (k' = k)) as [->|Hne].
        -- by rewrite lookup_delete_eq, HM.
        -- by rewrite lookup_delete_ne.
      * rewrite map_size_delete_None by done. lia.
Qed.

Lemma run_represents ops m M rs m' :
  represents m M → run ops m = Some (rs, m') →
  rs = (ideal_run ops M).1 ∧ represents m' (ideal_run ops M).2.
Proof.
  revert m M rs m'. induction ops as [|o rest IH]; intros m M rs m' Hrep; simpl.
  - by intros [= <- <-].
  - destruct (step m o) as [[r m1]|] eqn:Hstep; simpl; [|done].
    destruct (run rest m1) as [[rs' m2]|] eqn:Hrun; simpl; [|done].
    intros [= <- <-].
    destruct (step_represents m M o r m1 Hrep Hstep) as [Hr Hrep1].
    destruct (ideal_step M o) as [r0 M1]. simpl in Hr, Hrep1. subst r0.
    destruct (IH m1 M1 rs' m2 Hrep1 Hrun) as [Hrs Hrep2].
    destruct (ideal_run rest M1) as [rs0 M2]. simpl in *. by subst rs0.
Qed.

(** X9. A map made by [initmap] with a positive [int] capacity behaves as a
    finite map from keys to values: the results of any completed sequence
    of [get], [put] and [del] calls are the results of the same calls on an
    initially empty finite map, and afterwards the scan of every key finds
    exactly what the finite map binds the key to, with [size] the number
    of bindings. *)
Theorem hash_map_refines_finite_map r cap m0 ops rs m :
  0 < cap ≤ INT_MAX → initmap r cap = Some m0 → run ops m0 = Some (rs, m) →
  rs = (ideal_run ops ∅).1 ∧
  (∀ k, scan m k = Some ((ideal_run ops ∅).2 !! k)) ∧
  size m = Z.of_nat (base.size (ideal_run ops ∅).2).
Proof.
  intros Hcap Hinit Hrun.
  destruct (run_represents ops m0 ∅ rs m (represents_fresh r cap m0 Hcap Hinit) Hrun)
    as (Hrs & _ & Hscan & Hsize).
  done.
Qed.

Lemma hash_map_refines_finite_map_witness :
  0 < 4 ≤ INT_MAX ∧
  initmap all_acquired 4
  = Some {| table := [[]; []; []; []]; numOps := 0; capacity := 4; size := 0 |} ∧
  run [Put true 1 100; Put true 5 200]
      {| table := [[]; []; []; []]; numOps := 0; capacity := 4; size := 0 |}
  = Some ([INT_MAX; INT_MAX], scenario_map) ∧
  [INT_MAX; INT_MAX] = (ideal_run [Put true 1 100; Put true 5 200] ∅).1.
Proof.
  assert (0 < 4 ≤ INT_MAX) as Hcap by done.
  assert (initmap all_acquired 4
          = Some {| table := [[]; []; []; []]; numOps := 0;
                    capacity := 4; size := 0 |}) as H by reflexivity.
  assert (run [Put true 1 100; Put true 5 200]
              {| table := [[]; []; []; []]; numOps := 0; capacity := 4; size := 0 |}
          = Some ([INT_MAX; INT_MAX], scenario_map)) as Hrun by reflexivity.
  split; [exact Hcap|]. split; [exact H|]. split; [exact Hrun|].
  exact (proj1 (hash_map_refines_finite_map all_acquired 4 _ _ _ _ Hcap H Hrun)).
Defined.

(** ** Loops over the buckets: printmap and freeMap *)

Lemma for_each_bucket_drop {A : Type} (body : Z → list ts_entry_t → list A) m tl :
  ∀ n, drop n (table m) = tl →
    for_each_bucket body m (seqZ (Z.of_nat n) (Z.of_nat (length tl)))
    = Some (concat (zip_with body (seqZ (Z.of_nat n) (Z.of_nat (length tl))) tl)).
Proof.
  induction tl as [|c tl IH]; intros n Hdrop; [done|].
  simpl length. rewrite seqZ_cons by lia.
  replace (Z.succ (Z.of_nat n)) with (Z.of_nat (S n)) by lia.
  replace (Z.pred (Z.of_nat (S (length tl)))) with (Z.of_nat (length tl)) by lia.
  assert (table m !! n = Some c) as Hn.
  { pose proof (lookup_drop (table m) n 0) as H. rewrite Hdrop in H.
    simpl in H. by rewrite Nat.add_0_r in H. }
  assert (drop (S n) (table m) = tl) as Hdrop'.
  { rewrite (drop_S _ _ _ Hn) in Hdrop. by injection Hdrop. }
  simpl. unfold bucket at 1. rewrite Nat2Z.id, Hn. simpl.
  by rewrite (IH (S n) Hdrop').
Qed.

(** On a well-shaped map a loop over the buckets completes and makes the
    calls of its body for bucket 0, then bucket 1, and so on. *)
Lemma for_each_bucket_table {A : Type} (body : Z → list ts_entry_t → list A) m :
  well_shaped m →
  for_each_bucket body m (seqZ 0 (capacity m))
  = Some (concat (zip_with body (seqZ 0 (capacity m)) (table m))).
Proof.
  intros [Hcap Hlen].
  pose proof (for_each_bucket_drop body m (table m) 0 eq_refl) as H.
  replace (Z.of_nat (length (table m))) with (capacity m) in H by lia.
  exact H.
Qed.

Lemma omap_bodies {A B : Type} (f : A → option B)
    (body : Z → list ts_entry_t → list A) (g : Z → list ts_entry_t → list B)
    (idxs : list Z) (tbl : list (list ts_entry_t)) :
  (∀ i c, omap f (body i c) = g i c) →
  omap f (concat (zip_with body idxs tbl)) = concat (zip_with g idxs tbl).
Proof.
  intros Hbody. revert tbl.
  induction idxs as [|i idxs IH]; intros [|c tbl]; simpl; try done.
  by rewrite omap_app, Hbody, IH.
Qed.

Lemma concat_zip_with_chains (idxs : list Z) (tbl : list (list ts_entry_t)) :
  length idxs = length tbl →
  concat (zip_with (λ _ c, c) idxs tbl) = concat tbl.
Proof.
  revert tbl. induction idxs as [|i idxs IH]; intros [|c tbl]; simpl; try done.
  intros [= Hlen]. by rewrite IH.
Qed.

Lemma concat_zip_with_indices {B : Type} (f : Z → B)
    (idxs : list Z) (tbl : list (list ts_entry_t)) :
  length idxs = length tbl →
  concat (zip_with (λ i _, [f i]) idxs tbl) = f <$> idxs.
Proof.
  revert tbl. induction idxs as [|i idxs IH]; intros [|c tbl]; simpl; try done.
  intros [= Hlen]. by rewrite IH.
Qed.

Lemma printed_entries_chain chain : printed_entries (print_chain chain) = chain.
Proof.
  unfold printed_entries. induction chain as [|[k v] next IH]; [done|].
  simpl. rewrite omap_app, IH. by destruct next.
Qed.

Lemma printed_buckets_chain chain : printed_buckets (print_chain chain) = [].
Proof.
  unfold printed_buckets. induction chain as [|[k v] next IH]; [done|].
  simpl. rewrite omap_app, IH. by destruct next.
Qed.

Lemma printed_lines_chain chain :
  omap (λ c, match c with print_newline => Some () | _ => None end)
       (print_chain chain) = [].
Proof.
  induction chain as [|[k v] next IH]; [done|].
  simpl. rewrite omap_app, IH. by destruct next.
Qed.

(** X10. On a well-shaped map [printmap] completes and prints the buckets
    in index order, one line per bucket; over the whole output every entry
    of the table is printed exactly once, bucket after bucket and in chain
    order, so that the number of entries printed is [size] when [size]
    counts the entries. *)
Theorem printmap_prints_every_entry_once m :
  well_shaped m →
  ∃ calls,
    printmap m = Some calls ∧
    printed_entries calls = concat (table m) ∧
    printed_buckets calls = seqZ 0 (capacity m) ∧
    printed_lines calls = Z.to_nat (capacity m) ∧
    (size_counts m → Z.of_nat (length (printed_entries calls)) = size m).
Proof.
  intros Hw. pose proof Hw as [Hcap Hlen].
  assert (length (seqZ 0 (capacity m)) = length (table m)) as Hidx
    by (by rewrite length_seqZ).
  exists (concat (zip_with print_line (seqZ 0 (capacity m)) (table m))).
  split; [by apply for_each_bucket_table|].
  assert (printed_entries
            (concat (zip_with print_line (seqZ 0 (capacity m)) (table m)))
          = concat (table m)) as Hentries.
  { unfold printed_entries.
    rewrite (omap_bodies _ print_line (λ _ c, c)).
    - by apply concat_zip_with_chains.
    - intros i c. unfold print_line. simpl. rewrite omap_app. simpl.
      fold (printed_entries (print_chain c)).
      by rewrite printed_entries_chain, app_nil_r. }
  split; [done|]. split; [|split].
  - unfold printed_buckets.
    rewrite (omap_bodies _ print_line (λ i _, [i])).
    + rewrite (concat_zip_with_indices id) by done. apply list_fmap_id.
    + intros i c. unfold print_line. simpl. rewrite omap_app. simpl.
      fold (printed_buckets (print_chain c)).
      by rewrite printed_buckets_chain.
  - unfold printed_lines.
    rewrite (omap_bodies _ print_line (λ _ _, [()])).
    + rewrite (concat_zip_with_indices (λ _, ())) by done.
      by rewrite length_fmap, length_seqZ.
    + intros i c. unfold print_line. simpl. rewrite omap_app. simpl.
      by rewrite printed_lines_chain.
  - intros Hsz. rewrite Hentries. by rewrite Hsz.
Qed.

Lemma printmap_prints_every_entry_once_witness :
  well_shaped scenario_map ∧
  printmap scenario_map
  = Some [print_bucket 0; print_newline;
          print_bucket 1; print_entry 5 200; print_arrow; print_entry 1 100;
          print_newline;
          print_bucket 2; print_newline;
          print_bucket 3; print_newline] ∧
  ∃ calls,
    printmap scenario_map = Some calls ∧
    printed_entries calls = concat (table scenario_map) ∧
    printed_buckets calls = seqZ 0 (capacity scenario_map) ∧
    printed_lines calls = Z.to_nat (capacity scenario_map) ∧
    (size_counts scenario_map →
       Z.of_nat (length (printed_entries calls)) = size scenario_map).
Proof.
  assert (well_shaped scenario_map) as H by (split; [done | reflexivity]).
  split; [exact H|]. split; [reflexivity|].
  exact (printmap_prints_every_entry_once scenario_map H).
Defined.

Lemma freed_entries_chain chain : freed_entries (free_chain chain) = chain.
Proof.
  unfold freed_entries. induction chain as [|[k v] next IH]; [done|].
  simpl. f_equal. exact IH.
Qed.

(** X11. [freeMap] on a [NULL] map does nothing.  On a well-shaped map it
    completes: it takes the lock, frees every entry of the table exactly
    once, bucket after bucket and head first, and nothing else before the
    table; then it frees the table, unlocks and destroys the lock, and
    frees the map last.  The number of entries freed is [size] when [size]
    counts the entries. *)
Theorem freeMap_frees_every_entry_once m :
  well_shaped m →
  freeMap None = Some [] ∧
  ∃ frees,
    freeMap (Some m)
    = Some (mutex_lock :: frees
            ++ [free_table; mutex_unlock; mutex_destroy; free_map]) ∧
    frees = free_chain (concat (table m)) ∧
    freed_entries frees = concat (table m) ∧
    (size_counts m → Z.of_nat (length frees) = size m).
Proof.
  intros Hw. pose proof Hw as [Hcap Hlen]. split; [done|].
  assert (length (seqZ 0 (capacity m)) = length (table m)) as Hidx
    by (by rewrite length_seqZ).
  assert (∀ idxs tbl, length idxs = length tbl →
            concat (zip_with (λ (_ : Z) chain, free_chain chain) idxs tbl)
            = free_chain (concat tbl)) as Hflat.
  { assert (∀ a b, free_chain (a ++ b) = free_chain a ++ free_chain b) as Happ
      by (intros a b; induction a as [|e a IH]; simpl; [done | by rewrite IH]).
    induction idxs as [|i idxs IH]; intros [|c tbl]; simpl; try done.
    intros [= Hl]. by rewrite Happ, IH. }
  exists (free_chain (concat (table m))). split; [|split; [done|split]].
  - unfold freeMap. rewrite (for_each_bucket_table _ m Hw). simpl.
    by rewrite (Hflat _ _ Hidx).
  - apply freed_entries_chain.
  - intros Hsz. rewrite Hsz. unfold entry_count. f_equal.
    generalize (concat (table m)). intros l.
    induction l as [|e l IH]; simpl; [done | by rewrite IH].
Qed.

Lemma freeMap_frees_every_entry_once_witness :
  well_shaped scenario_map ∧
  freeMap (Some scenario_map)
  = Some [mutex_lock; free_entry 5 200; free_entry 1 100;
          free_table; mutex_unlock; mutex_destroy; free_map] ∧
  freeMap None = Some [].
Proof.
  assert (well_shaped scenario_map) as H by (split; [done | reflexivity]).
  split; [exact H|]. split; [reflexivity|].
  exact (proj1 (freeMap_frees_every_entry_once scenario_map H)).
Defined.

(** ** Overwriting needs no allocation *)

(** X12. On a map that satisfies the representation invariant, a [put] for
    a key that is already present does not depend on the allocator: it
    gives the same result and the same map whether an allocation would
    succeed or fail, and it leaves the chain lengths, hence the entry
    count, as they were. *)
Theorem put_present_ignores_allocator m k v :
  map_inv m → present m k →
  put true m k v = put false m k v ∧
  (∀ alloc r m', put alloc m k v = Some (r, m') →
     entry_count m' = entry_count m).
Proof.
  intros (_ & Hhome & _ & _) Hpres. split.
  - unfold put. cbv zeta.
    destruct (bucket_index k (capacity m)) as [i|] eqn:Hi; simpl; [|done].
    destruct (bucket m i) as [chain|] eqn:Hc; simpl; [|done].
    destruct (chain_put k v chain) as [[old chain']|] eqn:Hput; [done|].
    destruct (present_scan m k i chain Hhome Hpres Hi Hc) as [x Hx].
    apply chain_put_None in Hput. congruence.
  - intros alloc r m'
      (i & chain & Hi & Hc & _ & _ & _ &
       [(chain' & Hput & Htab & _)|[(Hput & _)|(Hput & _)]])%put_inv.
    + apply chain_put_Some in Hput as (_ & _ & _ & Hlen).
      rewrite (entry_count_update m m' _ _ _ Hc Htab). lia.
    + destruct (present_scan m k i chain Hhome Hpres Hi Hc) as [x Hx].
      apply chain_put_None in Hput. congruence.
    + destruct (present_scan m k i chain Hhome Hpres Hi Hc) as [x Hx].
      apply chain_put_None in Hput. congruence.
Qed.

Lemma put_present_ignores_allocator_witness :
  map_inv scenario_map ∧ present scenario_map 1 ∧
  put true scenario_map 1 7 = put false scenario_map 1 7.
Proof.
  assert (present scenario_map 1) as H by present_by_computation.
  split; [exact scenario_map_inv|]. split; [exact H|].
  exact (proj1 (put_present_ignores_allocator scenario_map 1 7
                  scenario_map_inv H)).
Defined.
